(** * A status-code example server: model and verification

    The program is a small Node.js HTTP server.  [onRequest] (the server
    file) parses the request URL, stores the query parameters on the request
    and looks the path name up in the route object [urlStruct];
    [jsonResponses.js] holds the three JSON handlers and the response writer
    [respondJSON].

    The model follows the JavaScript closely:
    - strings are sequences of UTF-16 code units;
    - objects whose property order is observable (the response payloads
      that [JSON.stringify] serialises) are association lists, the object
      used as a dictionary ([request.query]) is a finite map;
    - property reads go through the prototype chain ([Object.prototype]);
    - the effects (calls on the response object, exceptions, reads of the
      route object) live in a small state-and-exception monad; its state is
      the trace of the request and the route object;
    - [new URL] is modelled after the URL standard, with the host parser of
      the platform as a parameter. *)

From Stdlib Require Import NArith ZArith String Ascii Bool Lia.
From stdpp Require Import base option list gmap.

Local Open Scope N_scope.

(** ** JavaScript strings *)

Module JS.

(** A code unit is a number below [2^16]; a string is a list of them. *)
Definition codeunit := N.
Abbreviation jsstring := (list N).

Definition wf_unit (u : codeunit) : Prop := u < 65536.
Definition wf_string (s : jsstring) : Prop := Forall wf_unit s.

(** The value of an ASCII string literal of the source. *)
Definition js (s : string) : jsstring :=
  map N_of_ascii (list_ascii_of_string s).

Definition is_lead (u : codeunit) : bool := (0xD800 <=? u) && (u <=? 0xDBFF).
Definition is_trail (u : codeunit) : bool := (0xDC00 <=? u) && (u <=? 0xDFFF).

(** [StringToCodePoints] followed by the replacement of lone surrogates by
    U+FFFD: the conversion to scalar values that every UTF-8 encoder of the
    platform (and the [URL] constructor) applies to a string. *)
Fixpoint scalar_values (s : jsstring) : list N :=
  match s with
  | [] => []
  | u :: rest =>
    if is_lead u then
      match rest with
      | v :: rest' =>
        if is_trail v
        then (0x10000 + N.shiftl (u - 0xD800) 10 + (v - 0xDC00)) :: scalar_values rest'
        else 0xFFFD :: scalar_values rest
      | [] => [0xFFFD]
      end
    else if is_trail u then 0xFFFD :: scalar_values rest
    else u :: scalar_values rest
  end.

(** [UTF16EncodeCodePoint]. *)
Definition utf16_encode_cp (c : N) : jsstring :=
  if c <? 0x10000 then [c]
  else [0xD800 + N.shiftr (c - 0x10000) 10; 0xDC00 + N.land (c - 0x10000) 0x3FF].

Definition utf16_encode (cs : list N) : jsstring := concat (map utf16_encode_cp cs).

(** UTF-8 encoding of one scalar value, as bytes. *)
Definition utf8_encode_cp (c : N) : list N :=
  if c <? 0x80 then [c]
  else if c <? 0x800 then
    [N.lor 0xC0 (N.shiftr c 6); N.lor 0x80 (N.land c 0x3F)]
  else if c <? 0x10000 then
    [N.lor 0xE0 (N.shiftr c 12); N.lor 0x80 (N.land (N.shiftr c 6) 0x3F);
     N.lor 0x80 (N.land c 0x3F)]
  else
    [N.lor 0xF0 (N.shiftr c 18); N.lor 0x80 (N.land (N.shiftr c 12) 0x3F);
     N.lor 0x80 (N.land (N.shiftr c 6) 0x3F); N.lor 0x80 (N.land c 0x3F)].

(** The bytes a string is written as with the encoding ['utf8']. *)
Definition utf8_encode (s : jsstring) : list N :=
  concat (map utf8_encode_cp (scalar_values s)).

(** [Buffer.byteLength(s, 'utf8')]: the platform counts the bytes unit by
    unit without building them (one for ASCII, two below U+0800, four for a
    surrogate pair, three otherwise, a lone surrogate counting as U+FFFD). *)
Fixpoint Buffer_byteLength (s : jsstring) : N :=
  match s with
  | [] => 0
  | u :: rest =>
    if is_lead u then
      match rest with
      | v :: rest' =>
        if is_trail v then 4 + Buffer_byteLength rest' else 3 + Buffer_byteLength rest
      | [] => 3
      end
    else if u <? 0x80 then 1 + Buffer_byteLength rest
    else if u <? 0x800 then 2 + Buffer_byteLength rest
    else 3 + Buffer_byteLength rest
  end.

(** [s.length]: the number of code units. *)
Definition String_length (s : jsstring) : N := N.of_nat (length s).

(** *** JSON.stringify on strings and flat objects *)

Definition hex_digit (n : N) : codeunit :=
  if n <? 10 then 48 + n else 97 + (n - 10).

(** [UnicodeEscape]: a backslash, [u] and four lowercase hexadecimal digits. *)
Definition unicode_escape (u : codeunit) : jsstring :=
  [92; 117; hex_digit (N.land (N.shiftr u 12) 0xF); hex_digit (N.land (N.shiftr u 8) 0xF);
   hex_digit (N.land (N.shiftr u 4) 0xF); hex_digit (N.land u 0xF)].

(** The escape of one code unit that is not part of a surrogate pair. *)
Definition quote_unit (u : codeunit) : jsstring :=
  if u =? 8 then [92; 98]
  else if u =? 9 then [92; 116]
  else if u =? 10 then [92; 110]
  else if u =? 12 then [92; 102]
  else if u =? 13 then [92; 114]
  else if u =? 34 then [92; 34]
  else if u =? 92 then [92; 92]
  else if (u <? 32) || is_lead u || is_trail u then unicode_escape u
  else [u].

Fixpoint quote_body (s : jsstring) : jsstring :=
  match s with
  | [] => []
  | u :: rest =>
    if is_lead u then
      match rest with
      | v :: rest' =>
        if is_trail v then u :: v :: quote_body rest'
        else quote_unit u ++ quote_body rest
      | [] => quote_unit u
      end
    else quote_unit u ++ quote_body rest
  end.

(** [QuoteJSONString]. *)
Definition QuoteJSONString (s : jsstring) : jsstring := [34] ++ quote_body s ++ [34].

(** An object literal whose properties hold strings, in property order.
    (No key of the program is an array index, so property order is creation
    order.) *)
Abbreviation object := (list (jsstring * jsstring)).

Definition has_property (k : jsstring) (o : object) : bool :=
  existsb (fun kv => bool_decide (kv.1 = k)) o.

Fixpoint get_property (k : jsstring) (o : object) : option jsstring :=
  match o with
  | [] => None
  | (k', v) :: rest => if decide (k' = k) then Some v else get_property k rest
  end.

(** [o.k = v]: an existing property keeps its place, a new one goes last. *)
Fixpoint set_property (k v : jsstring) (o : object) : object :=
  match o with
  | [] => [(k, v)]
  | (k', v') :: rest =>
    if decide (k' = k) then (k', v) :: rest else (k', v') :: set_property k v rest
  end.

Fixpoint join_members (ms : list jsstring) : jsstring :=
  match ms with
  | [] => []
  | [m] => m
  | m :: rest => m ++ [44] ++ join_members rest
  end.

(** [JSON.stringify(o)] for such an object (no indentation). *)
Definition JSON_stringify (o : object) : jsstring :=
  [123] ++ join_members (map (fun kv => QuoteJSONString kv.1 ++ [58] ++ QuoteJSONString kv.2) o)
        ++ [125].

End JS.
Export JS.

(** ** Effects: the trace of a request and exceptions *)

Module Effect.

(** The functions a property read of this program can yield: the four
    handlers of the route object and the methods every object inherits from
    [Object.prototype]. *)
Inductive function : Type :=
  | GetIndex | Success | BadRequest | NotFound
  | Builtin (name : jsstring).

(** A header value of [writeHead]: a string or a number. *)
Inductive header_value : Type :=
  | HString (s : jsstring)
  | HNumber (n : N).

(** What is handed to [response.write]: a string, or the buffer that holds
    the client page. *)
Inductive chunk : Type :=
  | Text (s : jsstring)
  | IndexPage.

(** One step of a request: a method of the response object is called, or a
    function is entered or left.  The program makes the calls; the marks
    [Enter] and [Leave] are the model's, to tell which function a call on
    the response object is made in. *)
Inductive event : Type :=
  | Enter (f : function)
  | Leave (f : function)
  | WriteHead (status : Z) (headers : list (jsstring * header_value))
  | Write (c : chunk)
  | End.

Inductive error : Type :=
  | TypeError (code : string)
  | RangeError (code : string)
  | Error (code : string).

Inductive completion (A : Type) : Type :=
  | Normal (a : A)
  | Throw (e : error).
Arguments Normal {A} a.
Arguments Throw {A} e.

(** The state a computation works on: the trace of the request that is
    being handled, and the object the binding [urlStruct] of the server
    module refers to.  The binding is constant; the properties of its object
    are what an assignment could change. *)
Record state : Type := {
  trace : list event;
  route_object : list (jsstring * function)
}.

(** A computation reads and changes the state and completes normally or
    abruptly. *)
Definition M (A : Type) : Type := state -> completion A * state.

Definition ret {A} (a : A) : M A := fun s => (Normal a, s).

Definition bind {A B} (c : M A) (k : A -> M B) : M B :=
  fun s =>
    match c s with
    | (Normal a, s') => k a s'
    | (Throw e, s') => (Throw e, s')
    end.

Definition throw {A} (e : error) : M A := fun s => (Throw e, s).

(** The state with the events [l] added to its trace. *)
Definition record (l : list event) (s : state) : state :=
  {| trace := trace s ++ l; route_object := route_object s |}.

Definition emit (e : event) : M unit := fun s => (Normal tt, record [e] s).

Definition get_trace : M (list event) := fun s => (Normal (trace s), s).

(** The object [urlStruct] refers to. *)
Definition get_urlStruct : M (list (jsstring * function)) :=
  fun s => (Normal (route_object s), s).

End Effect.
Export Effect.

Notation "'let*' x := c 'in' k" := (bind c (fun x => k))
  (at level 10, x name, c at level 100, k at level 200).
Notation "c ;; k" := (bind c (fun _ => k))
  (at level 100, k at level 200, right associativity).

#[global] Instance function_eq_dec : EqDecision function.
Proof. solve_decision. Defined.
#[global] Instance header_value_eq_dec : EqDecision header_value.
Proof. solve_decision. Defined.
#[global] Instance chunk_eq_dec : EqDecision chunk.
Proof. solve_decision. Defined.
#[global] Instance event_eq_dec : EqDecision event.
Proof. solve_decision. Defined.

(** ** The response object *)

Module ServerResponse.

Definition is_response_call (e : event) : bool :=
  match e with
  | WriteHead _ _ | Write _ | End => true
  | _ => false
  end.

(** [response.headersSent]: the head goes out with the first call. *)
Definition headersSent (t : list event) : bool := existsb is_response_call t.

(** [ToInt32] of an integral number, which is what [statusCode |= 0] leaves
    of it: the number modulo 2^32, taken as a signed 32-bit integer. *)
Definition ToInt32 (z : Z) : Z :=
  let int32bit := (z mod 4294967296)%Z in
  if (2147483648 <=? int32bit)%Z then (int32bit - 4294967296)%Z else int32bit.

(** [response.writeHead(statusCode, headers)] throws when the head was
    already sent; otherwise it truncates the status code with
    [statusCode |= 0], throws when the result is not within 100..999, and
    sends the head with the truncated code.  (The handlers pass 200, 400 and
    404; a status is an integral number here.) *)
Definition writeHead (statusCode : Z) (headers : list (jsstring * header_value)) : M unit :=
  let* t := get_trace in
  if headersSent t then throw (Error "ERR_HTTP_HEADERS_SENT")
  else
    let statusCode := ToInt32 statusCode in
    if ((statusCode <? 100) || (999 <? statusCode))%Z then
      throw (RangeError "ERR_HTTP_INVALID_STATUS_CODE")
    else emit (WriteHead statusCode headers).

Definition write (c : chunk) : M unit := emit (Write c).

Definition end_ : M unit := emit End.

End ServerResponse.
Export ServerResponse.

(** ** Property reads *)

Module Object.

(** The values a property read of this program can yield. *)
Inductive value : Type :=
  | VUndefined
  | VString (s : jsstring)
  | VFunction (f : function)
  | VObjectPrototype.

#[global] Instance value_eq_dec : EqDecision value.
Proof. solve_decision. Defined.

(** The methods of [Object.prototype]. *)
Definition prototype_methods : list jsstring :=
  map js ["constructor"; "__defineGetter__"; "__defineSetter__"; "hasOwnProperty";
          "__lookupGetter__"; "__lookupSetter__"; "isPrototypeOf";
          "propertyIsEnumerable"; "toString"; "valueOf"; "toLocaleString"]%string.

(** A read that finds no own property goes on to [Object.prototype]; its
    accessor [__proto__] yields the prototype of the receiver, which for an
    object literal is [Object.prototype] itself. *)
Definition prototype_get (k : jsstring) : value :=
  if decide (k = js "__proto__") then VObjectPrototype
  else if decide (k ∈ prototype_methods) then VFunction (Builtin k)
  else VUndefined.

(** [o[k]] for an ordinary object with the own properties [own]. *)
Definition Get {V} (inj : V -> value) (own : jsstring -> option V) (k : jsstring) : value :=
  match own k with
  | Some v => inj v
  | None => prototype_get k
  end.

Definition ToBoolean (v : value) : bool :=
  match v with
  | VUndefined => false
  | VString s => negb (bool_decide (s = []))
  | VFunction _ | VObjectPrototype => true
  end.

(** [v !== w] *)
Definition strict_ne (v w : value) : bool := negb (bool_decide (v = w)).

(** [Object.fromEntries(entries)]: each pair defines (or redefines) the
    own property of its key, in iteration order. *)
Definition fromEntries (entries : list (jsstring * jsstring)) : gmap jsstring jsstring :=
  foldl (fun o kv => <[kv.1 := kv.2]> o) ∅ entries.

(** [Object.keys(o)], up to order. *)
Definition keys (o : gmap jsstring jsstring) : list jsstring := (map_to_list o).*1.

End Object.
Export Object.

(** ** The platform's [URL] class

    [new URL(input, base)] follows the URL standard's basic parser.  The
    parser is written here as the functions its states compute; a state of
    the standard is named where its steps are taken.  Host parsing (domain
    names with their Unicode tables, IPv4 and IPv6 addresses) is the one
    part left as a parameter: given the host text and whether the host is
    opaque, it yields the serialised host or fails.  Credentials are parsed
    past and not kept, since nothing reads them. *)

Module URL.

Definition ch (a : ascii) : N := N_of_ascii a.
Definition backslash : N := 92.

Definition is_alpha (c : N) : bool :=
  ((ch "A" <=? c) && (c <=? ch "Z")) || ((ch "a" <=? c) && (c <=? ch "z")).
Definition is_digit (c : N) : bool := (ch "0" <=? c) && (c <=? ch "9").
Definition to_lower (c : N) : N :=
  if (ch "A" <=? c) && (c <=? ch "Z") then c + 32 else c.
Definition is_hex (c : N) : bool :=
  is_digit c || ((ch "A" <=? c) && (c <=? ch "F")) || ((ch "a" <=? c) && (c <=? ch "f")).
Definition hex_value (c : N) : N :=
  if is_digit c then c - ch "0"
  else if ch "a" <=? c then c - ch "a" + 10 else c - ch "A" + 10.

Definition eqs (s t : list N) : bool := bool_decide (s = t).
Definition one_of (c : N) (cs : string) : bool := existsb (N.eqb c) (js cs).

(** *** Input preparation *)

Definition is_c0_or_space (c : N) : bool := c <=? 0x20.
Definition is_tab_or_newline (c : N) : bool := (c =? 9) || (c =? 10) || (c =? 13).

Fixpoint strip_leading (s : list N) : list N :=
  match s with
  | c :: rest => if is_c0_or_space c then strip_leading rest else s
  | [] => []
  end.

Fixpoint strip_trailing (s : list N) : list N :=
  match s with
  | [] => []
  | c :: rest =>
    match strip_trailing rest with
    | [] => if is_c0_or_space c then [] else [c]
    | rest' => c :: rest'
    end
  end.

Definition remove_tab_newline (s : list N) : list N :=
  List.filter (fun c => negb (is_tab_or_newline c)) s.

(** The scalar values of the input without leading and trailing C0 controls
    and spaces and without any tab or newline. *)
Definition prepare (input : jsstring) : list N :=
  remove_tab_newline (strip_trailing (strip_leading (scalar_values input))).

(** *** Percent-encoding *)

Definition in_c0_control_set (c : N) : bool := (c <=? 0x1F) || (0x7E <? c).
Definition in_fragment_set (c : N) : bool :=
  in_c0_control_set c || (c =? 0x20) || (c =? 0x22) || one_of c "<>`".
Definition in_query_set (c : N) : bool :=
  in_c0_control_set c || (c =? 0x20) || (c =? 0x22) || one_of c "#<>".
Definition in_special_query_set (c : N) : bool := in_query_set c || (c =? 0x27).
Definition in_path_set (c : N) : bool := in_query_set c || one_of c "?^`{}".

Definition upper_hex_digit (n : N) : N := if n <? 10 then 48 + n else 65 + (n - 10).

Definition percent_encode_byte (b : N) : list N :=
  [ch "%"; upper_hex_digit (N.shiftr b 4); upper_hex_digit (N.land b 0xF)].

Definition utf8_percent_encode (set : N -> bool) (c : N) : list N :=
  if set c then concat (map percent_encode_byte (utf8_encode_cp c)) else [c].

Definition percent_encode_all (set : N -> bool) (s : list N) : list N :=
  concat (map (utf8_percent_encode set) s).

(** *** The URL record *)

Inductive url_path : Type :=
  | Opaque (s : list N)
  | Segments (l : list (list N)).

Record URL : Type := {
  scheme : list N;
  host : option (list N);
  port : option N;
  path : url_path;
  query : option (list N);
  fragment : option (list N)
}.

Definition is_special (sch : list N) : bool :=
  existsb (eqs sch) (map js ["ftp"; "file"; "http"; "https"; "ws"; "wss"]%string).

Definition default_port (sch : list N) : option N :=
  if eqs sch (js "ftp") then Some 21
  else if eqs sch (js "http") || eqs sch (js "ws") then Some 80
  else if eqs sch (js "https") || eqs sch (js "wss") then Some 443
  else None.

(** *** Scheme *)

(** scheme state: the rest of a scheme and what follows its colon *)
Fixpoint scheme_state (buffer s : list N) : option (list N * list N) :=
  match s with
  | [] => None
  | c :: rest =>
    if is_alpha c || is_digit c || one_of c "+-."
    then scheme_state (buffer ++ [to_lower c]) rest
    else if c =? ch ":" then Some (buffer, rest)
    else None
  end.

(** scheme start state; [None] sends the parser to the no scheme state *)
Definition split_scheme (s : list N) : option (list N * list N) :=
  match s with
  | c :: rest => if is_alpha c then scheme_state [to_lower c] rest else None
  | [] => None
  end.

(** *** Path *)

Definition lower (s : list N) : list N := map to_lower s.

Definition is_single_dot (buffer : list N) : bool :=
  eqs buffer (js ".") || eqs (lower buffer) (js "%2e").
Definition is_double_dot (buffer : list N) : bool :=
  eqs buffer (js "..") || existsb (eqs (lower buffer)) (map js [".%2e"; "%2e."; "%2e%2e"]%string).

Definition is_windows_drive_letter (buffer : list N) : bool :=
  match buffer with
  | [a; b] => is_alpha a && ((b =? ch ":") || (b =? ch "|"))
  | _ => false
  end.
Definition is_normalized_windows_drive_letter (buffer : list N) : bool :=
  match buffer with
  | [a; b] => is_alpha a && (b =? ch ":")
  | _ => false
  end.

(** shorten a path *)
Definition shorten (file : bool) (p : list (list N)) : list (list N) :=
  match p with
  | [seg] => if file && is_normalized_windows_drive_letter seg then p else []
  | _ => removelast p
  end.

Definition is_separator (special : bool) (c : N) : bool :=
  (c =? ch "/") || (special && (c =? backslash)).

(** path state, at the end of a segment; [at_separator] tells whether the
    segment ends at a separator or at the end of the path *)
Definition end_segment (file at_separator : bool) (buffer : list N) (p : list (list N))
  : list (list N) :=
  if is_double_dot buffer then
    let p' := shorten file p in
    if at_separator then p' else p' ++ [[]]
  else if is_single_dot buffer then
    if at_separator then p else p ++ [[]]
  else
    let segment :=
      match buffer with
      | [a; _] =>
        if file && bool_decide (p = []) && is_windows_drive_letter buffer
        then [a; ch ":"] else buffer
      | _ => buffer
      end in
    p ++ [segment].

(** path state: the path and what follows it (a query or a fragment) *)
Fixpoint path_state (special file : bool) (s buffer : list N) (p : list (list N))
  : list (list N) * list N :=
  match s with
  | [] => (end_segment file false buffer p, [])
  | c :: rest =>
    if is_separator special c
    then path_state special file rest [] (end_segment file true buffer p)
    else if (c =? ch "?") || (c =? ch "#")
    then (end_segment file false buffer p, s)
    else path_state special file rest (buffer ++ utf8_percent_encode in_path_set c) p
  end.

(** The prefix of [s] before the first code point that satisfies [stop],
    and the rest from that code point on. *)
Fixpoint split_at (stop : N -> bool) (s : list N) : list N * list N :=
  match s with
  | [] => ([], [])
  | c :: rest =>
    if stop c then ([], s)
    else let '(a, b) := split_at stop rest in (c :: a, b)
  end.

(** query state and fragment state, on what follows the path *)
Definition query_fragment (special : bool) (s : list N)
  : option (list N) * option (list N) :=
  let encode_query :=
    percent_encode_all (if special then in_special_query_set else in_query_set) in
  let encode_fragment := percent_encode_all in_fragment_set in
  match s with
  | c :: rest =>
    if c =? ch "?" then
      let '(q, f) := split_at (N.eqb (ch "#")) rest in
      (Some (encode_query q),
       match f with _ :: f' => Some (encode_fragment f') | [] => None end)
    else if c =? ch "#" then (None, Some (encode_fragment rest))
    else (None, None)
  | [] => (None, None)
  end.

(** path start state *)
Definition path_start (special file : bool) (s : list N) : list (list N) * list N :=
  match s with
  | c :: rest =>
    if special then
      path_state special file (if is_separator special c then rest else s) [] []
    else if (c =? ch "?") || (c =? ch "#") then ([], s)
    else path_state special file (if c =? ch "/" then rest else s) [] []
  | [] => if special then path_state special file [] [] [] else ([], [])
  end.

(** *** Authority *)

(** authority state: the text after the last [@], and whether there was one *)
Fixpoint after_credentials (s : list N) : bool * list N :=
  match s with
  | [] => (false, [])
  | c :: rest =>
    let '(seen, h) := after_credentials rest in
    if seen then (true, h)
    else if c =? ch "@" then (true, rest)
    else (false, s)
  end.

(** host state: the host text up to the first colon outside brackets, and
    the port text after that colon when there is one *)
Fixpoint split_host (inside_brackets : bool) (s : list N) : list N * option (list N) :=
  match s with
  | [] => ([], None)
  | c :: rest =>
    if (c =? ch ":") && negb inside_brackets then ([], Some rest)
    else
      let inside :=
        if c =? ch "[" then true else if c =? ch "]" then false else inside_brackets in
      let '(h, p) := split_host inside rest in (c :: h, p)
  end.

Definition decimal (s : list N) : N :=
  foldl (fun n c => 10 * n + (c - ch "0")) 0 s.

(** port state: the port, [None] when it is the scheme's default one *)
Definition port_state (sch buffer : list N) : option (option N) :=
  if forallb is_digit buffer then
    match buffer with
    | [] => Some None
    | _ =>
      let p := decimal buffer in
      if 65535 <? p then None
      else Some (if bool_decide (default_port sch = Some p) then None else Some p)
    end
  else None.

Section Parser.

(** The host parser of the platform. *)
Variable host_parser : list N -> bool -> option (list N).

(** authority state, host state and port state on the authority text [s]:
    the host and the port, and what follows the authority *)
Definition authority (sch : list N) (s : list N)
  : option (option (list N) * option N * list N) :=
  let special := is_special sch in
  let '(auth, rest) :=
    split_at (fun c => is_separator special c || (c =? ch "?") || (c =? ch "#")) s in
  let '(at_sign_seen, hostport) := after_credentials auth in
  if at_sign_seen && eqs hostport [] then None
  else
    match split_host false hostport with
    | (buffer, Some port_text) =>
      if eqs buffer [] then None
      else
        match host_parser buffer (negb special) with
        | None => None
        | Some h =>
          match port_state sch port_text with
          | None => None
          | Some p => Some (Some h, p, rest)
          end
        end
    | (buffer, None) =>
      if special && eqs buffer [] then None
      else
        match host_parser buffer (negb special) with
        | None => None
        | Some h => Some (Some h, None, rest)
        end
    end.

(** The record of a URL with an authority: path start state onwards. *)
Definition with_authority (sch : list N) (s : list N) : option URL :=
  let special := is_special sch in
  match authority sch s with
  | None => None
  | Some (h, p, rest) =>
    let '(segments, rest') := path_start special false rest in
    let '(q, f) := query_fragment special rest' in
    Some {| scheme := sch; host := h; port := p; path := Segments segments;
            query := q; fragment := f |}
  end.

(** special authority slashes state and special authority ignore slashes
    state: every leading slash and backslash is skipped *)
Fixpoint ignore_slashes (s : list N) : list N :=
  match s with
  | c :: rest => if is_separator true c then ignore_slashes rest else s
  | [] => []
  end.

(** The rest of a URL whose host and port are known: path state onwards. *)
Definition with_path (sch : list N) (h : option (list N)) (p : option N)
    (file : bool) (s buffer : list N) (start : list (list N)) : URL :=
  let special := is_special sch in
  let '(segments, rest) := path_state special file s buffer start in
  let '(q, f) := query_fragment special rest in
  {| scheme := sch; host := h; port := p; path := Segments segments;
     query := q; fragment := f |}.

(** file state, file slash state and file host state, for a base that is
    not a file URL *)
Definition file_state (s : list N) : option URL :=
  let sch := js "file" in
  match s with
  | c :: rest =>
    if is_separator true c then
      match rest with
      | c' :: rest' =>
        if is_separator true c' then
          let '(buffer, after) :=
            split_at (fun c => is_separator true c || (c =? ch "?") || (c =? ch "#")) rest' in
          if is_windows_drive_letter buffer
          then Some (with_path sch (Some []) None true after buffer [])
          else if eqs buffer [] then
            let '(segments, rest'') := path_start true true after in
            let '(q, f) := query_fragment true rest'' in
            Some {| scheme := sch; host := Some []; port := None;
                    path := Segments segments; query := q; fragment := f |}
          else
            match host_parser buffer false with
            | None => None
            | Some h =>
              let h' := if eqs h (js "localhost") then [] else h in
              let '(segments, rest'') := path_start true true after in
              let '(q, f) := query_fragment true rest'' in
              Some {| scheme := sch; host := Some h'; port := None;
                      path := Segments segments; query := q; fragment := f |}
            end
        else Some (with_path sch (Some []) None true rest [] [])
      | [] => Some (with_path sch (Some []) None true rest [] [])
      end
    else Some (with_path sch (Some []) None true s [] [])
  | [] => Some (with_path sch (Some []) None true s [] [])
  end.

(** opaque path state *)
Fixpoint opaque_path (s : list N) : list N * list N :=
  match s with
  | [] => ([], [])
  | c :: rest =>
    if (c =? ch "?") || (c =? ch "#") then ([], s)
    else if c =? 0x20 then
      let '(a, b) := opaque_path rest in
      match rest with
      | c' :: _ =>
        if (c' =? ch "?") || (c' =? ch "#") then (js "%20" ++ a, b) else (c :: a, b)
      | [] => (c :: a, b)
      end
    else
      let '(a, b) := opaque_path rest in
      (utf8_percent_encode in_c0_control_set c ++ a, b)
  end.

(** relative state and relative slash state.  A base is an http or https
    URL here ([onRequest] builds it from the protocol), so the steps the
    standard takes for a file base are left out. *)
Definition relative (base : URL) (s : list N) : option URL :=
  let sch := scheme base in
  let special := is_special sch in
  let base_segments := match path base with Segments l => l | Opaque _ => [] end in
  match s with
  | [] => Some {| scheme := sch; host := host base; port := port base; path := path base;
                  query := query base; fragment := None |}
  | c :: rest =>
    if is_separator special c then
      (* relative slash state *)
      match rest with
      | c' :: rest' =>
        if special && is_separator true c' then with_authority sch (ignore_slashes rest')
        else if c' =? ch "/" then with_authority sch rest'
        else Some (with_path sch (host base) (port base) false rest [] [])
      | [] => Some (with_path sch (host base) (port base) false rest [] [])
      end
    else if c =? ch "?" then
      let '(q, f) := query_fragment special s in
      Some {| scheme := sch; host := host base; port := port base; path := path base;
              query := q; fragment := f |}
    else if c =? ch "#" then
      let '(_, f) := query_fragment special s in
      Some {| scheme := sch; host := host base; port := port base; path := path base;
              query := query base; fragment := f |}
    else
      Some (with_path sch (host base) (port base) false s [] (shorten false base_segments))
  end.

(** The basic URL parser on prepared input. *)
Definition basic_URL_parser (s : list N) (base : option URL) : option URL :=
  match split_scheme s with
  | Some (sch, rest) =>
    if eqs sch (js "file") then file_state rest
    else if is_special sch then
      match base with
      | Some b =>
        if eqs (scheme b) sch then
          (* special relative or authority state *)
          match rest with
          | c :: c' :: rest' =>
            if (c =? ch "/") && (c' =? ch "/")
            then with_authority sch (ignore_slashes rest')
            else relative b rest
          | _ => relative b rest
          end
        else with_authority sch (ignore_slashes rest)
      | None => with_authority sch (ignore_slashes rest)
      end
    else
      match rest with
      | c :: rest' =>
        if c =? ch "/" then
          (* path or authority state *)
          match rest' with
          | c' :: rest'' =>
            if c' =? ch "/" then with_authority sch rest''
            else Some (with_path sch None None false rest' [] [])
          | [] => Some (with_path sch None None false rest' [] [])
          end
        else
          let '(p, after) := opaque_path rest in
          let '(q, f) := query_fragment false after in
          Some {| scheme := sch; host := None; port := None; path := Opaque p;
                  query := q; fragment := f |}
      | [] =>
        Some {| scheme := sch; host := None; port := None; path := Opaque [];
                query := None; fragment := None |}
      end
  | None =>
    (* no scheme state *)
    match base with
    | None => None
    | Some b =>
      match path b with
      | Opaque _ =>
        match s with
        | c :: _ =>
          if c =? ch "#" then
            let '(_, f) := query_fragment false s in
            Some {| scheme := scheme b; host := host b; port := port b; path := path b;
                    query := query b; fragment := f |}
          else None
        | [] => None
        end
      | Segments _ => relative b s
      end
    end
  end.

(** [new URL(input, base)]; [None] stands for the [TypeError] it throws. *)
Definition URL_new (input base : jsstring) : option URL :=
  match basic_URL_parser (prepare base) None with
  | None => None
  | Some b => basic_URL_parser (prepare input) (Some b)
  end.

End Parser.

(** [url.pathname]: the URL path serialiser. *)
Definition pathname (u : URL) : jsstring :=
  match path u with
  | Opaque s => s
  | Segments l => concat (map (fun segment => ch "/" :: segment) l)
  end.

(** *** Search parameters *)

(** percent-decode, from code points that are bytes to bytes *)
Fixpoint percent_decode (s : list N) : list N :=
  match s with
  | [] => []
  | c :: rest =>
    if c =? ch "%" then
      match rest with
      | h :: l :: rest' =>
        if is_hex h && is_hex l
        then (16 * hex_value h + hex_value l) :: percent_decode rest'
        else c :: percent_decode rest
      | _ => c :: percent_decode rest
      end
    else c :: percent_decode rest
  end.

(** UTF-8 decode without BOM: the decoder of the Encoding standard, which
    answers a malformed sequence with U+FFFD and takes the offending byte up
    again.  [needed] continuation bytes are awaited for the code point [cp],
    the next one within [lo..hi]. *)
Fixpoint utf8_decode_from (bs : list N) (cp needed lo hi : N) : list N :=
  match bs with
  | [] => if needed =? 0 then [] else [0xFFFD]
  | b :: rest =>
    let first_byte :=
      if b <=? 0x7F then b :: utf8_decode_from rest 0 0 0x80 0xBF
      else if (0xC2 <=? b) && (b <=? 0xDF)
      then utf8_decode_from rest (N.land b 0x1F) 1 0x80 0xBF
      else if (0xE0 <=? b) && (b <=? 0xEF)
      then utf8_decode_from rest (N.land b 0xF) 2
             (if b =? 0xE0 then 0xA0 else 0x80) (if b =? 0xED then 0x9F else 0xBF)
      else if (0xF0 <=? b) && (b <=? 0xF4)
      then utf8_decode_from rest (N.land b 0x7) 3
             (if b =? 0xF0 then 0x90 else 0x80) (if b =? 0xF4 then 0x8F else 0xBF)
      else 0xFFFD :: utf8_decode_from rest 0 0 0x80 0xBF in
    if needed =? 0 then first_byte
    else if (b <? lo) || (hi <? b) then 0xFFFD :: first_byte
    else
      let cp' := N.lor (N.shiftl cp 6) (N.land b 0x3F) in
      if needed =? 1 then cp' :: utf8_decode_from rest 0 0 0x80 0xBF
      else utf8_decode_from rest cp' (needed - 1) 0x80 0xBF
  end.

Definition utf8_decode (bs : list N) : jsstring :=
  utf16_encode (utf8_decode_from bs 0 0 0x80 0xBF).

(** The sequences between the occurrences of [d]. *)
Fixpoint split_on (d : N) (s : list N) : list (list N) :=
  match s with
  | [] => [[]]
  | c :: rest =>
    match split_on d rest with
    | first :: others => if c =? d then [] :: first :: others else (c :: first) :: others
    | [] => [[c]]
    end
  end.

Definition plus_to_space (s : list N) : list N :=
  map (fun c => if c =? ch "+" then 0x20 else c) s.

Definition decode_component (s : list N) : jsstring :=
  utf8_decode (percent_decode (plus_to_space s)).

(** One name-value pair of a query: split at the first [=]. *)
Definition parse_pair (sequence : list N) : jsstring * jsstring :=
  let '(name, rest) := split_at (N.eqb (ch "=")) sequence in
  (decode_component name, decode_component (match rest with _ :: v => v | [] => [] end)).

(** The [application/x-www-form-urlencoded] parser. *)
Definition urlencoded_parse (q : list N) : list (jsstring * jsstring) :=
  map parse_pair (List.filter (fun sequence => negb (eqs sequence [])) (split_on (ch "&") q)).

(** [url.searchParams], as the list of pairs it iterates over. *)
Definition searchParams (u : URL) : list (jsstring * jsstring) :=
  urlencoded_parse (match query u with Some q => q | None => [] end).

End URL.
Export URL.

(** ** The request *)

(** What the program reads of the incoming message: [request.method],
    [request.url], [request.headers.host] (absent when the request has no
    such header), [request.connection.encrypted], and the property
    [request.query] that [onRequest] adds. *)
Record IncomingMessage : Type := {
  method : jsstring;
  url : jsstring;
  headers_host : option jsstring;
  connection_encrypted : bool;
  request_query : option (gmap jsstring jsstring)
}.

Definition set_query (q : gmap jsstring jsstring) (request : IncomingMessage)
  : IncomingMessage :=
  {| method := method request; url := url request;
     headers_host := headers_host request;
     connection_encrypted := connection_encrypted request;
     request_query := Some q |}.

Definition set_method (m : jsstring) (request : IncomingMessage) : IncomingMessage :=
  {| method := m; url := url request;
     headers_host := headers_host request;
     connection_encrypted := connection_encrypted request;
     request_query := request_query request |}.

(** ** jsonResponses.js *)

Module jsonResponses.

(** [respondJSON(request, response, status, object)] *)
Definition respondJSON (request : IncomingMessage) (status : Z) (obj : object) : M unit :=
  let content := JSON_stringify obj in
  writeHead status
    [(js "Content-Type", HString (js "application/json"));
     (js "Content-Length", HNumber (Buffer_byteLength content))] ;;
  write (Text content) ;;
  end_.

Definition success (request : IncomingMessage) : M unit :=
  let responseJSON := [(js "message", js "This is a successful response")] in
  respondJSON request 200 responseJSON.

Definition badRequest (request : IncomingMessage) : M unit :=
  let responseJSON := [(js "message", js "This request has the required parameters")] in
  match request_query request with
  | None => throw (TypeError "Cannot read properties of undefined")
  | Some query =>
    let valid := Get VString (fun k => query !! k) (js "valid") in
    if negb (ToBoolean valid) || strict_ne valid (VString (js "true")) then
      let responseJSON :=
        set_property (js "message") (js "Missing valid query parameter set to true")
          responseJSON in
      let responseJSON := set_property (js "id") (js "badRequest") responseJSON in
      respondJSON request 400 responseJSON
    else respondJSON request 200 responseJSON
  end.

Definition notFound (request : IncomingMessage) : M unit :=
  let responseJSON :=
    [(js "message", js "The page you are looking for was not found.");
     (js "id", js "notFound")] in
  respondJSON request 404 responseJSON.

End jsonResponses.

(** ** htmlResponses.js *)

Module htmlResponses.

(** Modelled from the spec: [htmlResponses.js] is not among the sources.
    The spec has the server answer with canned JSON and HTML and serve a
    static client page, and requires of every handler one terminal response
    written once; [getIndex] is taken to send the page buffer with status
    200 and the content type [text/html]. *)
Definition getIndex (request : IncomingMessage) : M unit :=
  writeHead 200 [(js "Content-Type", HString (js "text/html"))] ;;
  write IndexPage ;;
  end_.

End htmlResponses.

(** ** The server file *)

Module server.

(** The route object, as the object literal lists its properties. *)
Definition urlStruct : list (jsstring * function) :=
  [(js "/", GetIndex);
   (js "/success", Success);
   (js "/badRequest", BadRequest);
   (js "notFound", NotFound)].

Fixpoint own_property {V} (o : list (jsstring * V)) (k : jsstring) : option V :=
  match o with
  | [] => None
  | (k', v) :: rest => if decide (k' = k) then Some v else own_property rest k
  end.

(** What calling a method of [Object.prototype] with the arguments
    [(request, response)] does: [__defineGetter__] and [__defineSetter__]
    reject the response object, which is not callable; the other methods
    return without touching their arguments. *)
Definition call_builtin (name : jsstring) : M unit :=
  if decide (name = js "__defineGetter__") then throw (TypeError "not a function")
  else if decide (name = js "__defineSetter__") then throw (TypeError "not a function")
  else ret tt.

Definition body (f : function) (request : IncomingMessage) : M unit :=
  match f with
  | GetIndex => htmlResponses.getIndex request
  | Success => jsonResponses.success request
  | BadRequest => jsonResponses.badRequest request
  | NotFound => jsonResponses.notFound request
  | Builtin name => call_builtin name
  end.

(** [v(request, response)] *)
Definition call (v : value) (request : IncomingMessage) : M unit :=
  match v with
  | VFunction f => emit (Enter f) ;; body f request ;; emit (Leave f)
  | _ => throw (TypeError "not a function")
  end.

(** [urlStruct[k]] *)
Definition urlStruct_get (k : jsstring) : M value :=
  let* o := get_urlStruct in
  ret (Get VFunction (own_property o) k).

Section OnRequest.

Variable host_parser : list N -> bool -> option (list N).

(** [onRequest(request, response)], where [invoke v request] stands for the
    call [v(request, response)] of the value [v] that the read of the route
    object gives. *)
Definition onRequest_with (invoke : value -> IncomingMessage -> M unit)
    (request : IncomingMessage) : M unit :=
  let protocol := if connection_encrypted request then js "https" else js "http" in
  let host_text := match headers_host request with Some h => h | None => js "undefined" end in
  match URL_new host_parser (url request) (protocol ++ js "://" ++ host_text) with
  | None => throw (TypeError "ERR_INVALID_URL")
  | Some parsedUrl =>
    let request := set_query (fromEntries (searchParams parsedUrl)) request in
    let* found := urlStruct_get (pathname parsedUrl) in
    if ToBoolean found then
      let* handler := urlStruct_get (pathname parsedUrl) in
      invoke handler request
    else
      let* handler := urlStruct_get (js "notFound") in
      invoke handler request
  end.

(** [onRequest] with the calls as the functions of the program run them. *)
Definition onRequest : IncomingMessage -> M unit := onRequest_with call.

(** The state in which the platform calls the listener: a response object
    nothing was called on yet, and the route object as it is then. *)
Definition fresh (o : list (jsstring * function)) : state :=
  {| trace := []; route_object := o |}.

(** The outcome of the first request of the process. *)
Definition serve (request : IncomingMessage) : completion unit * state :=
  onRequest request (fresh urlStruct).

(** The outcomes of the listener calls of one process for the requests
    that arrive in turn, every call with a response object of its own and
    with the route object as the calls before left it.  The platform calls
    the listener for every request for as long as the process runs.  The
    program catches nothing and installs no handler for uncaught
    exceptions, so an exception that leaves the listener ends the process:
    the requests after it get no listener call. *)
Fixpoint session (o : list (jsstring * function)) (requests : list IncomingMessage)
  : list (completion unit * list event) :=
  match requests with
  | [] => []
  | request :: rest =>
    let '(c, s) := onRequest request (fresh o) in
    (c, trace s) ::
    match c with
    | Normal _ => session (route_object s) rest
    | Throw _ => []
    end
  end.

End OnRequest.

End server.
Export server.

(** ** Observations on a trace *)

Module Observe.

(** The status codes of the heads written. *)
Definition status_line (t : list event) : list Z :=
  omap (fun e => match e with WriteHead s _ => Some s | _ => None end) t.

(** The header fields of the heads written. *)
Definition head_fields (t : list event) : list (list (jsstring * header_value)) :=
  omap (fun e => match e with WriteHead _ h => Some h | _ => None end) t.

(** The chunks written, in order. *)
Definition written (t : list event) : list chunk :=
  omap (fun e => match e with Write c => Some c | _ => None end) t.

(** The functions entered, in order. *)
Definition entered (t : list event) : list function :=
  omap (fun e => match e with Enter f => Some f | _ => None end) t.

(** The calls on the response object, in order. *)
Definition response_calls (t : list event) : list event := List.filter is_response_call t.

(** The head and the calls of [respondJSON] for a status and a payload. *)
Definition json_head (content : jsstring) : list (jsstring * header_value) :=
  [(js "Content-Type", HString (js "application/json"));
   (js "Content-Length", HNumber (Buffer_byteLength content))].

Definition json_calls (status : Z) (obj : object) : list event :=
  [WriteHead status (json_head (JSON_stringify obj));
   Write (Text (JSON_stringify obj)); End].

(** The trace of a request that one handler answers with [respondJSON]. *)
Definition json_exchange (f : function) (status : Z) (obj : object) : list event :=
  [Enter f] ++ json_calls status obj ++ [Leave f].

Definition page_exchange : list event :=
  [Enter GetIndex; WriteHead 200 [(js "Content-Type", HString (js "text/html"))];
   Write IndexPage; End; Leave GetIndex].

End Observe.
Export Observe.

(** ** Payloads, requests and hosts used in the statements *)

(** The payloads the handlers build. *)
Definition success_payload : object :=
  [(js "message", js "This is a successful response")].
Definition valid_payload : object :=
  [(js "message", js "This request has the required parameters")].
Definition invalid_payload : object :=
  [(js "message", js "Missing valid query parameter set to true");
   (js "id", js "badRequest")].
Definition notFound_payload : object :=
  [(js "message", js "The page you are looking for was not found.");
   (js "id", js "notFound")].

(** A payload of well-formed strings. *)
Definition wf_object (o : object) : Prop :=
  Forall (fun kv => wf_string kv.1 /\ wf_string kv.2) o.

(** The base [onRequest] resolves the request URL against. *)
Definition base_text (request : IncomingMessage) : jsstring :=
  (if connection_encrypted request then js "https" else js "http")
    ++ js "://" ++ match headers_host request with Some h => h | None => js "undefined" end.

(** [parsedUrl] of [onRequest]. *)
Definition parsedUrl (host_parser : list N -> bool -> option (list N))
    (request : IncomingMessage) : option URL :=
  URL_new host_parser (url request) (base_text request).

(** The request targets the HTTP parser of the platform hands to a request
    listener: the origin form (a path that starts with a slash), the
    asterisk form, and the absolute form, in which letters, a colon and two
    slashes come first. *)
Fixpoint absolute_form (s : jsstring) : bool :=
  match s with
  | c :: rest =>
    if is_alpha c then absolute_form rest
    else
      (c =? ch ":") &&
      match rest with
      | a :: b :: _ => (a =? ch "/") && (b =? ch "/")
      | _ => false
      end
  | [] => false
  end.

Definition request_target (s : jsstring) : bool :=
  match s with
  | c :: rest => (c =? ch "/") || (c =? ch "*") || (is_alpha c && absolute_form rest)
  | [] => false
  end.

(** A code unit that input preparation leaves in place: no surrogate, no C0
    control and no space. *)
Definition plain (c : N) : bool :=
  negb (is_lead c) && negb (is_trail c) && negb (is_c0_or_space c).

(** What [prepare] makes of the input after a first plain code unit. *)
Definition prepare_rest (r : jsstring) : list N :=
  remove_tab_newline (strip_trailing (scalar_values r)).

(** The state after the first request of the process when its trace is [t]. *)
Definition after (t : list event) : state := {| trace := t; route_object := urlStruct |}.

(** A computation that leaves the route object as it is. *)
Definition keeps_routes {A} (c : M A) : Prop :=
  forall s, route_object (c s).2 = route_object s.

(** [urlStruct[p]] for the route object of the source. *)
Definition route (p : jsstring) : value := Get VFunction (own_property urlStruct) p.

(** A URL whose path is a list of segments. *)
Definition has_segments (u : URL) : Prop := exists l, path u = Segments l.

(** The host parser on the plainest hosts: a name of lowercase letters and
    dots is its own serialisation, and a URL that is not special may have an
    empty host.  It stands for the platform's parser in the closed examples,
    whose hosts are all of this kind; it rejects every other host. *)
Definition plain_host_parser (s : list N) (opaque : bool) : option (list N) :=
  if forallb (fun c => ((ch "a" <=? c) && (c <=? ch "z")) || (c =? ch ".")) s
     && negb (eqs s [])
  then Some s
  else if opaque && eqs s [] then Some []
  else None.

(** [GET target] sent to [localhost:3000] over plain HTTP. *)
Definition get (target : string) : IncomingMessage :=
  {| method := js "GET"; url := js target; headers_host := Some (js "localhost:3000");
     connection_encrypted := false; request_query := None |}.

(** ** The rest of the server file *)

(** The base URL of a request, as [new URL] parses it first. *)
Definition base_URL (host_parser : list N -> bool -> option (list N))
    (request : IncomingMessage) : option URL :=
  basic_URL_parser host_parser (prepare (base_text request)) None.

Module config.

(** [port]: a string of the environment or the number 3000. *)
Inductive port_value : Type :=
  | PortText (s : jsstring)
  | PortNumber (n : N).

(** [process.env.PORT || process.env.NODE_PORT || 3000]: a variable that is
    not set reads undefined, and [||] passes over undefined and over the
    empty string. *)
Definition port (env : gmap jsstring jsstring) : port_value :=
  let or_else (v : option jsstring) (otherwise : port_value) : port_value :=
    match v with
    | Some s => if ToBoolean (VString s) then PortText s else otherwise
    | None => otherwise
    end in
  or_else (env !! js "PORT") (or_else (env !! js "NODE_PORT") (PortNumber 3000)).

End config.

(** Two outcomes of URL parsing that fail together or agree on the path and
    the query. *)
Definition same_resource (u1 u2 : option URL) : Prop :=
  match u1, u2 with
  | Some a, Some b => path a = path b /\ query a = query b
  | None, None => True
  | _, _ => False
  end.

(** A code unit that the parser takes into the query of a URL, as it is or
    percent-encoded: plain, and not the number sign that starts a fragment. *)
Definition query_unit (c : N) : bool := plain c && negb (c =? ch "#").

(** ** Reading what the server writes *)

(** The character a JSON escape of one letter stands for. *)
Definition simple_escape (e : N) : option N :=
  if e =? 34 then Some 34
  else if e =? 92 then Some 92
  else if e =? 47 then Some 47
  else if e =? 98 then Some 8
  else if e =? 102 then Some 12
  else if e =? 110 then Some 10
  else if e =? 114 then Some 13
  else if e =? 116 then Some 9
  else None.

(** A character put in front of what was read. *)
Definition prepend (c : N) (r : option (jsstring * jsstring)) : option (jsstring * jsstring) :=
  match r with
  | Some (t, rest) => Some (c :: t, rest)
  | None => None
  end.

(** The string token of the JSON grammar after its opening quote: the
    string it denotes and the text that follows its closing quote.  A
    control character, an unknown escape and a missing closing quote make
    the text no string token. *)
Fixpoint read_string (s : jsstring) : option (jsstring * jsstring) :=
  match s with
  | [] => None
  | c :: rest =>
    if c =? 34 then Some ([], rest)
    else if c =? 92 then
      match rest with
      | e :: rest' =>
        if e =? 117 then
          match rest' with
          | h1 :: h2 :: h3 :: h4 :: rest'' =>
            if is_hex h1 && is_hex h2 && is_hex h3 && is_hex h4
            then prepend (4096 * hex_value h1 + 256 * hex_value h2
                          + 16 * hex_value h3 + hex_value h4)
                         (read_string rest'')
            else None
          | _ => None
          end
        else
          match simple_escape e with
          | Some d => prepend d (read_string rest')
          | None => None
          end
      | [] => None
      end
    else if c <? 32 then None
    else prepend c (read_string rest)
  end.

(** A string token at the start of a text. *)
Definition JSON_read_string (text : jsstring) : option (jsstring * jsstring) :=
  match text with
  | c :: body => if c =? 34 then read_string body else None
  | [] => None
  end.

(** A string in which every surrogate is part of a pair. *)
Fixpoint well_paired (s : jsstring) : bool :=
  match s with
  | [] => true
  | u :: rest =>
    if is_lead u then
      match rest with
      | v :: rest' => is_trail v && well_paired rest'
      | [] => false
      end
    else negb (is_trail u) && well_paired rest
  end.

(** A Unicode scalar value. *)
Definition scalar (c : N) : bool :=
  (c <? 0x110000) && negb ((0xD800 <=? c) && (c <=? 0xDFFF)).

(** What follows the first member in the text of an object. *)
Fixpoint members_tail (ms : list jsstring) : jsstring :=
  match ms with
  | [] => [125]
  | m :: rest => 44 :: m ++ members_tail rest
  end.

(** The text of one member. *)
Definition member_text (kv : jsstring * jsstring) : jsstring :=
  QuoteJSONString kv.1 ++ [58] ++ QuoteJSONString kv.2.

(** Linear arithmetic with division and remainder by constants. *)
Ltac div_lia := zify; Z.to_euclidean_division_equations; lia.

(** ** The client page *)

Module client.








End client.

(** ** Requests in a session *)

(** A request the listener takes to a handler: its target is one the HTTP
    parser hands over, and its URL is one the [URL] constructor accepts. *)
Definition accepted (host_parser : list N -> bool -> option (list N))
    (request : IncomingMessage) : Prop :=
  request_target (url request) = true /\ is_Some (parsedUrl host_parser request).

(** The outcome of a request that is the first of its process: the
    completion of the listener and the calls on the response object. *)
Definition answer (host_parser : list N -> bool -> option (list N))
    (request : IncomingMessage) : completion unit * list event :=
  ((serve host_parser request).1, trace (serve host_parser request).2).

(** Boolean comparisons on [N] as propositions, for [lia]. *)
Ltac unbool :=
  repeat match goal with
  | H : _ /\ _ |- _ => destruct H
  | H : context [(_ && _) = true] |- _ => rewrite andb_true_iff in H
  | H : context [(_ || _) = false] |- _ => rewrite orb_false_iff in H
  | H : context [negb _ = true] |- _ => rewrite negb_true_iff in H
  | H : context [negb _ = false] |- _ => rewrite negb_false_iff in H
  | H : context [(_ && _) = false] |- _ => rewrite andb_false_iff in H
  | H : context [(_ || _) = true] |- _ => rewrite orb_true_iff in H
  | H : context [(_ <=? _) = true] |- _ => rewrite N.leb_le in H
  | H : context [(_ <=? _) = false] |- _ => rewrite N.leb_gt in H
  | H : context [(_ <? _) = true] |- _ => rewrite N.ltb_lt in H
  | H : context [(_ <? _) = false] |- _ => rewrite N.ltb_ge in H
  | H : context [(_ =? _) = true] |- _ => rewrite N.eqb_eq in H
  | H : context [(_ =? _) = false] |- _ => rewrite N.eqb_neq in H
  end;
  repeat (progress rewrite ?andb_true_iff, ?orb_false_iff, ?andb_false_iff, ?orb_true_iff,
    ?negb_true_iff, ?negb_false_iff,
    ?N.leb_le, ?N.leb_gt, ?N.ltb_lt, ?N.ltb_ge, ?N.eqb_eq, ?N.eqb_neq).


(** ** Strings: encoding and serialisation *)

Section Encoding.

Lemma utf8_encode_cp_length c :
  length (utf8_encode_cp c) =
    if c <? 0x80 then 1%nat else if c <? 0x800 then 2%nat
    else if c <? 0x10000 then 3%nat else 4%nat.
Proof. unfold utf8_encode_cp. repeat case_match; reflexivity. Qed.

Lemma utf8_encode_cons_plain u rest :
  is_lead u = false ->
  utf8_encode (u :: rest) =
    utf8_encode_cp (if is_trail u then 0xFFFD else u) ++ utf8_encode rest.
Proof.
  intros Hl. unfold utf8_encode. simpl. rewrite Hl. destruct (is_trail u); reflexivity.
Qed.

Lemma utf8_encode_pair u v rest :
  is_lead u = true -> is_trail v = true ->
  utf8_encode (u :: v :: rest) =
    utf8_encode_cp (0x10000 + N.shiftl (u - 0xD800) 10 + (v - 0xDC00)) ++ utf8_encode rest.
Proof. intros Hl Ht. unfold utf8_encode. simpl. rewrite Hl, Ht. reflexivity. Qed.

Lemma utf8_encode_lone_lead u rest :
  is_lead u = true -> match rest with v :: _ => is_trail v = false | [] => True end ->
  utf8_encode (u :: rest) = utf8_encode_cp 0xFFFD ++ utf8_encode rest.
Proof.
  intros Hl Hr. unfold utf8_encode. simpl. rewrite Hl.
  destruct rest as [|v rest']; [reflexivity|]. rewrite Hr. reflexivity.
Qed.

(** The count of [Buffer.byteLength] is the length of the UTF-8 encoding. *)
Lemma Buffer_byteLength_utf8 s :
  wf_string s -> Buffer_byteLength s = N.of_nat (length (utf8_encode s)).
Proof.
  remember (length s) as n eqn:Hn. revert s Hn.
  induction (lt_wf n) as [n _ IH]. intros s Hn Hwf.
  destruct s as [|u rest]; [reflexivity|].
  apply Forall_cons in Hwf as [Hu Hrest]. unfold wf_unit in Hu.
  simpl Buffer_byteLength. destruct (is_lead u) eqn:Hl.
  - destruct rest as [|v rest'].
    + rewrite utf8_encode_lone_lead by (assumption || exact I). reflexivity.
    + destruct (is_trail v) eqn:Ht.
      * rewrite utf8_encode_pair by assumption.
        apply Forall_cons in Hrest as [_ Hrest'].
        rewrite (IH (length rest')) with (s := rest'); [|simpl in Hn; lia|reflexivity|assumption].
        rewrite length_app, utf8_encode_cp_length.
        unfold is_lead, is_trail in *. repeat case_match; unbool; lia.
      * rewrite utf8_encode_lone_lead by assumption.
        rewrite (IH (length (v :: rest'))) with (s := v :: rest');
          [|simpl in *; lia|reflexivity|assumption].
        rewrite length_app. change (length (utf8_encode_cp 0xFFFD)) with 3%nat. lia.
  - rewrite utf8_encode_cons_plain by assumption.
    rewrite length_app, utf8_encode_cp_length.
    rewrite (IH (length rest)) with (s := rest); [|simpl in Hn; lia|reflexivity|assumption].
    unfold is_lead, is_trail in *. repeat case_match; unbool; lia.
Qed.

Lemma hex_digit_wf n : n < 16 -> wf_unit (hex_digit n).
Proof. unfold wf_unit, hex_digit. case_match; unbool; lia. Qed.

Lemma land_15 n : N.land n 0xF < 16.
Proof. change 0xF with (N.ones 4). rewrite N.land_ones. apply N.mod_lt. discriminate. Qed.

Lemma quote_unit_wf u : wf_unit u -> wf_string (quote_unit u).
Proof.
  intros Hu. unfold quote_unit, unicode_escape.
  repeat case_match; repeat constructor; try (unfold wf_unit; lia); try assumption;
    apply hex_digit_wf, land_15.
Qed.

Lemma quote_body_wf s : wf_string s -> wf_string (quote_body s).
Proof.
  remember (length s) as n eqn:Hn. revert s Hn.
  induction (lt_wf n) as [n _ IH]. intros s Hn Hwf.
  destruct s as [|u rest]; [constructor|].
  apply Forall_cons in Hwf as [Hu Hrest]. simpl.
  assert (Hrec : wf_string (quote_body rest)).
  { apply (IH (length rest)); [simpl in Hn; lia|reflexivity|assumption]. }
  destruct (is_lead u).
  - destruct rest as [|v rest']; [apply quote_unit_wf, Hu|].
    destruct (is_trail v).
    + apply Forall_cons in Hrest as [Hv Hrest'].
      repeat constructor; try assumption.
      apply (IH (length rest')); [simpl in Hn; lia|reflexivity|assumption].
    + apply Forall_app. split; [apply quote_unit_wf, Hu|assumption].
  - apply Forall_app. split; [apply quote_unit_wf, Hu|assumption].
Qed.

Lemma QuoteJSONString_wf s : wf_string s -> wf_string (QuoteJSONString s).
Proof.
  intros Hs. unfold QuoteJSONString.
  apply Forall_cons. split; [reflexivity|].
  apply Forall_app. split; [apply quote_body_wf, Hs|].
  apply Forall_cons. split; [reflexivity|constructor].
Qed.

Lemma join_members_wf ms : Forall wf_string ms -> wf_string (join_members ms).
Proof.
  induction ms as [|m ms IH]; intros H; [constructor|].
  apply Forall_cons in H as [Hm Hms].
  destruct ms as [|m' ms']; [assumption|].
  change (wf_string (m ++ 44 :: join_members (m' :: ms'))).
  apply Forall_app. split; [assumption|].
  apply Forall_cons. split; [unfold wf_unit; lia|apply IH, Hms].
Qed.

Lemma JSON_stringify_wf o : wf_object o -> wf_string (JSON_stringify o).
Proof.
  intros Ho. unfold JSON_stringify.
  apply Forall_app. split; [apply Forall_cons; split; [reflexivity|constructor]|].
  apply Forall_app. split; [|apply Forall_cons; split; [reflexivity|constructor]].
  apply join_members_wf, Forall_map.
  eapply Forall_impl; [exact Ho|]. intros [k v] [Hk Hv]. simpl in Hk, Hv.
  change (wf_string (QuoteJSONString k ++ [58] ++ QuoteJSONString v)).
  apply Forall_app. split; [apply QuoteJSONString_wf, Hk|].
  apply Forall_cons. split; [reflexivity|apply QuoteJSONString_wf, Hv].
Qed.

End Encoding.

(** ** The URL parser: paths of request targets *)

Section ParserFacts.

Variable host_parser : list N -> bool -> option (list N).

Lemma with_authority_segments sch s u :
  with_authority host_parser sch s = Some u -> has_segments u.
Proof.
  unfold with_authority, has_segments. intros H.
  repeat case_match; simplify_eq; simpl; eauto.
Qed.

Lemma with_path_segments sch h p file s buffer start :
  has_segments (with_path sch h p file s buffer start).
Proof. unfold with_path, has_segments. repeat case_match; simpl; eauto. Qed.

Lemma file_state_segments s u : file_state host_parser s = Some u -> has_segments u.
Proof.
  unfold file_state. intros H.
  repeat case_match; simplify_eq; try apply with_path_segments;
    unfold has_segments; simpl; eauto.
Qed.

Lemma relative_segments b s u :
  has_segments b -> relative host_parser b s = Some u -> has_segments u.
Proof.
  unfold relative. intros Hb H.
  repeat case_match; simplify_eq;
    try apply with_path_segments; try (eapply with_authority_segments; eassumption);
    unfold has_segments in *; simpl; eauto.
Qed.

(** Preparation keeps a plain code unit at the head of the input. *)
Lemma strip_trailing_plain c s :
  is_c0_or_space c = false -> strip_trailing (c :: s) = c :: strip_trailing s.
Proof. intros Hc. simpl. rewrite Hc. destruct (strip_trailing s); reflexivity. Qed.

Lemma plain_facts c :
  plain c = true ->
  is_lead c = false /\ is_trail c = false /\ is_c0_or_space c = false /\
  is_tab_or_newline c = false.
Proof.
  unfold plain, is_tab_or_newline, is_c0_or_space. intros H.
  apply andb_true_iff in H as [H H3]. apply andb_true_iff in H as [H1 H2].
  apply negb_true_iff in H1, H2, H3. repeat split; try assumption.
  unbool. lia.
Qed.

Lemma prepare_rest_plain c r :
  plain c = true -> prepare_rest (c :: r) = c :: prepare_rest r.
Proof.
  intros Hc. apply plain_facts in Hc as (Hl & Ht & Hs & Hn).
  unfold prepare_rest. simpl scalar_values. rewrite Hl, Ht.
  rewrite strip_trailing_plain by assumption.
  unfold remove_tab_newline. simpl. rewrite Hn. reflexivity.
Qed.

Lemma prepare_plain c r : plain c = true -> prepare (c :: r) = c :: prepare_rest r.
Proof.
  intros Hc. rewrite <- prepare_rest_plain by assumption.
  apply plain_facts in Hc as (Hl & Ht & Hs & Hn).
  unfold prepare, prepare_rest. simpl scalar_values. rewrite Hl, Ht.
  simpl strip_leading. rewrite Hs. reflexivity.
Qed.

Lemma alpha_plain c : is_alpha c = true -> plain c = true.
Proof.
  unfold is_alpha, plain, is_lead, is_trail, is_c0_or_space, ch. simpl N_of_ascii.
  intros H. unbool. lia.
Qed.

(** The base of [onRequest] is an http or https URL with an authority. *)
Lemma prepare_base protocol rest :
  protocol = js "http" \/ protocol = js "https" ->
  prepare (protocol ++ js "://" ++ rest) = protocol ++ js "://" ++ prepare_rest rest.
Proof.
  intros [-> | ->]; cbn [js list_ascii_of_string map app];
    rewrite prepare_plain by reflexivity;
    rewrite !prepare_rest_plain by reflexivity; reflexivity.
Qed.

Lemma parse_base protocol rest :
  protocol = js "http" \/ protocol = js "https" ->
  basic_URL_parser host_parser (protocol ++ js "://" ++ rest) None =
    with_authority host_parser protocol (ignore_slashes rest).
Proof. intros [-> | ->]; reflexivity. Qed.

Lemma base_segments request b :
  basic_URL_parser host_parser (prepare (base_text request)) None = Some b ->
  has_segments b.
Proof.
  unfold base_text. intros H.
  rewrite prepare_base, parse_base in H
    by (destruct (connection_encrypted request); [right|left]; reflexivity).
  eapply with_authority_segments; eassumption.
Qed.

(** In the absolute form the scheme ends at a colon that two slashes follow. *)
Lemma absolute_form_scheme s buffer :
  absolute_form s = true ->
  exists sch rest,
    scheme_state buffer (prepare_rest s) = Some (sch, ch "/" :: ch "/" :: rest).
Proof.
  revert buffer. induction s as [|c s IH]; intros buffer H; [discriminate|].
  simpl in H. destruct (is_alpha c) eqn:Hc.
  - rewrite prepare_rest_plain by (apply alpha_plain, Hc).
    simpl. rewrite Hc. simpl. apply IH, H.
  - apply andb_true_iff in H as [Hcolon H]. apply N.eqb_eq in Hcolon. subst c.
    destruct s as [|a [|b s']]; try discriminate.
    apply andb_true_iff in H as [Ha Hb]. apply N.eqb_eq in Ha, Hb. subst a b.
    rewrite !prepare_rest_plain by reflexivity.
    eexists _, _. reflexivity.
Qed.

(** What the scheme states make of a request target. *)
Lemma request_target_scheme s :
  request_target s = true ->
  split_scheme (prepare s) = None \/
  exists sch rest, split_scheme (prepare s) = Some (sch, ch "/" :: ch "/" :: rest).
Proof.
  destruct s as [|c s]; [discriminate|]. simpl. intros H.
  apply orb_true_iff in H as [H | H]; [apply orb_true_iff in H as [H | H]|].
  - apply N.eqb_eq in H. subst c. left. rewrite prepare_plain by reflexivity. reflexivity.
  - apply N.eqb_eq in H. subst c. left. rewrite prepare_plain by reflexivity. reflexivity.
  - apply andb_true_iff in H as [Hc H]. right.
    rewrite prepare_plain by (apply alpha_plain, Hc).
    simpl. rewrite Hc. apply absolute_form_scheme, H.
Qed.

(** The URL of a request target has a path of segments. *)
Lemma parsedUrl_segments request u :
  request_target (url request) = true ->
  parsedUrl host_parser request = Some u -> has_segments u.
Proof.
  unfold parsedUrl, URL_new. intros Ht H.
  destruct (basic_URL_parser host_parser (prepare (base_text request)) None)
    as [b|] eqn:Hb; [|discriminate].
  apply base_segments in Hb.
  unfold basic_URL_parser in H.
  destruct (request_target_scheme _ Ht) as [Hs | (sch & rest & Hs)]; rewrite Hs in H.
  - destruct Hb as [l Hl]. rewrite Hl in H. eapply relative_segments; [|eassumption].
    exists l. assumption.
  - change (ch "/" =? ch "/") with true in H. cbv iota in H. simpl andb in H.
    repeat case_match; simplify_eq;
      try (eapply with_authority_segments; eassumption);
      try (eapply file_state_segments; eassumption).
Qed.

(** A path of segments is serialised to the empty string or to a string that
    starts with a slash. *)
Lemma pathname_segments u :
  has_segments u -> pathname u = [] \/ exists p, pathname u = ch "/" :: p.
Proof.
  intros [l Hl]. unfold pathname. rewrite Hl.
  destruct l as [|segment l]; [left; reflexivity|right]. simpl. eauto.
Qed.

End ParserFacts.

(** ** The query object *)

Section Query.

Lemma fromEntries_fold (m : gmap jsstring jsstring) l k :
  k ∉ l.*1 ->
  foldl (fun o kv => <[kv.1 := kv.2]> o) m l !! k = m !! k.
Proof.
  revert m. induction l as [|[k' v'] l IH]; intros m Hk; [reflexivity|].
  simpl in *. apply not_elem_of_cons in Hk as [Hne Hk].
  rewrite IH by assumption. apply lookup_insert_ne. congruence.
Qed.

(** The last pair of a key gives the property its value. *)
Lemma fromEntries_last before k v after :
  k ∉ after.*1 -> fromEntries (before ++ (k, v) :: after) !! k = Some v.
Proof.
  intros Hk. unfold fromEntries. rewrite foldl_app. simpl.
  rewrite fromEntries_fold by assumption. apply lookup_insert_eq.
Qed.

Lemma filter_absent (l : list jsstring) k :
  k ∉ l -> filter (fun k' => k' = k) l = [].
Proof.
  induction l as [|x l IH]; intros Hk; [reflexivity|].
  apply not_elem_of_cons in Hk as [Hne Hk]. rewrite filter_cons.
  destruct (decide (x = k)); [congruence|apply IH, Hk].
Qed.

Lemma count_in_NoDup (l : list jsstring) k :
  NoDup l -> k ∈ l -> length (filter (fun k' => k' = k) l) = 1%nat.
Proof.
  induction 1 as [|x l Hx Hl IH]; intros Hin; [by apply elem_of_nil in Hin|].
  rewrite filter_cons. destruct (decide (x = k)) as [->|Hne].
  - simpl. rewrite filter_absent by assumption. reflexivity.
  - apply elem_of_cons in Hin as [->|Hin]; [contradiction|]. apply IH, Hin.
Qed.

(** A key of the object is one of its keys once. *)
Lemma keys_once (o : gmap jsstring jsstring) k v :
  o !! k = Some v -> length (filter (fun k' => k' = k) (keys o)) = 1%nat.
Proof.
  intros Hk. apply count_in_NoDup.
  - apply NoDup_fst_map_to_list.
  - unfold keys. apply list_elem_of_fmap. exists (k, v). split; [reflexivity|].
    apply elem_of_map_to_list, Hk.
Qed.

End Query.

(** ** The response writer and the handlers *)

Section Handlers.

Import jsonResponses.

Lemma record_record l l' s : record l' (record l s) = record (l ++ l') s.
Proof. unfold record. simpl. rewrite <- app_assoc. reflexivity. Qed.

(** On a response whose head is not sent, and for a status code the
    platform accepts, [respondJSON] makes its three calls and returns. *)
(** [statusCode |= 0] leaves a signed 32-bit integer as it is. *)
Lemma ToInt32_small z : (-2147483648 <= z < 2147483648)%Z -> ToInt32 z = z.
Proof.
  intros Hz. unfold ToInt32.
  destruct (Z.leb_spec 2147483648 (z mod 4294967296)) as [H|H]; div_lia.
Qed.

(** [respondJSON] sends the status code as [writeHead] truncates it. *)
Lemma respondJSON_run_truncated request status obj s :
  headersSent (trace s) = false -> (100 <= ToInt32 status <= 999)%Z ->
  respondJSON request status obj s =
    (Normal tt, record (json_calls (ToInt32 status) obj) s).
Proof.
  intros Hsent Hrange.
  unfold respondJSON, writeHead, write, end_, bind, get_trace, emit, throw.
  rewrite Hsent.
  replace ((ToInt32 status <? 100)%Z || (999 <? ToInt32 status)%Z) with false
    by (symmetry; apply orb_false_iff; split; [apply Z.ltb_ge|apply Z.ltb_ge]; lia).
  rewrite !record_record. reflexivity.
Qed.

Lemma respondJSON_run request status obj s :
  headersSent (trace s) = false -> (100 <= status <= 999)%Z ->
  respondJSON request status obj s = (Normal tt, record (json_calls status obj) s).
Proof.
  intros Hsent Hrange.
  rewrite respondJSON_run_truncated by (rewrite ?ToInt32_small; assumption || lia).
  rewrite ToInt32_small by lia. reflexivity.
Qed.

(** A status code that is outside 100..999 after the truncation makes
    [writeHead] throw. *)
Lemma respondJSON_bad_status request status obj s :
  headersSent (trace s) = false -> (ToInt32 status < 100 \/ 999 < ToInt32 status)%Z ->
  respondJSON request status obj s = (Throw (RangeError "ERR_HTTP_INVALID_STATUS_CODE"), s).
Proof.
  intros Hsent Hrange.
  unfold respondJSON, writeHead, write, end_, bind, get_trace, emit, throw.
  rewrite Hsent.
  replace ((ToInt32 status <? 100)%Z || (999 <? ToInt32 status)%Z) with true;
    [reflexivity|].
  symmetry. apply orb_true_iff. destruct Hrange; [left|right]; apply Z.ltb_lt; lia.
Qed.

Lemma success_run request s :
  headersSent (trace s) = false ->
  success request s = (Normal tt, record (json_calls 200 success_payload) s).
Proof. intros H. unfold success. apply respondJSON_run; [assumption|lia]. Qed.

Lemma notFound_run request s :
  headersSent (trace s) = false ->
  notFound request s = (Normal tt, record (json_calls 404 notFound_payload) s).
Proof. intros H. unfold notFound. apply respondJSON_run; [assumption|lia]. Qed.

(** [request.query.valid] is an own property of the query object or
    undefined: [Object.prototype] has no property of that name. *)
Lemma query_valid (q : gmap jsstring jsstring) :
  Get VString (fun k => q !! k) (js "valid") =
    match q !! js "valid" with Some v => VString v | None => VUndefined end.
Proof. unfold Get. destruct (q !! js "valid"); reflexivity. Qed.

(** The test of [badRequest] fails exactly for the string ["true"]. *)
Lemma badRequest_test (q : gmap jsstring jsstring) :
  let valid := Get VString (fun k => q !! k) (js "valid") in
  negb (ToBoolean valid) || strict_ne valid (VString (js "true")) =
    negb (bool_decide (q !! js "valid" = Some (js "true"))).
Proof.
  cbv zeta. rewrite query_valid. destruct (q !! js "valid") as [v|] eqn:Hq.
  - unfold strict_ne, ToBoolean.
    destruct (decide (v = js "true")) as [->|Hne].
    + rewrite (bool_decide_eq_true_2 (VString _ = _)) by reflexivity.
      rewrite (bool_decide_eq_true_2 (Some _ = _)) by reflexivity.
      reflexivity.
    + rewrite (bool_decide_eq_false_2 (VString v = _)) by congruence.
      rewrite (bool_decide_eq_false_2 (Some v = _)) by congruence.
      apply orb_true_r.
  - rewrite (bool_decide_eq_false_2 (None = _)) by discriminate. reflexivity.
Qed.

Lemma badRequest_run request q s :
  request_query request = Some q -> headersSent (trace s) = false ->
  badRequest request s =
    (Normal tt,
     record (if bool_decide (q !! js "valid" = Some (js "true"))
             then json_calls 200 valid_payload
             else json_calls 400 invalid_payload) s).
Proof.
  intros Hq H. unfold badRequest. rewrite Hq.
  pose proof (badRequest_test q) as Htest. cbv zeta in Htest. rewrite Htest.
  destruct (bool_decide (q !! js "valid" = Some (js "true"))); simpl negb; cbv iota.
  - apply respondJSON_run; [assumption|lia].
  - change (set_property (js "id") (js "badRequest")
              (set_property (js "message") (js "Missing valid query parameter set to true")
                 [(js "message", js "This request has the required parameters")]))
      with invalid_payload.
    apply respondJSON_run; [assumption|lia].
Qed.

Lemma getIndex_run request s :
  headersSent (trace s) = false ->
  htmlResponses.getIndex request s =
    (Normal tt,
     record [WriteHead 200 [(js "Content-Type", HString (js "text/html"))];
             Write IndexPage; End] s).
Proof.
  intros H. unfold htmlResponses.getIndex, writeHead, write, end_, bind, get_trace, emit.
  rewrite H. simpl. rewrite !record_record. reflexivity.
Qed.

(** Calling a handler on a response object nothing was called on. *)
Lemma call_run f request calls s :
  (forall s', headersSent (trace s') = false ->
     body f request s' = (Normal tt, record calls s')) ->
  trace s = [] ->
  call (VFunction f) request s = (Normal tt, record ([Enter f] ++ calls ++ [Leave f]) s).
Proof.
  intros Hbody Hs. unfold call, bind, emit.
  rewrite (Hbody (record [Enter f] s)) by (simpl; rewrite Hs; reflexivity).
  rewrite !record_record. reflexivity.
Qed.

End Handlers.

(** ** The route object is left as it is *)

Section Frame.

Lemma keeps_ret {A} (a : A) : keeps_routes (ret a).
Proof. intros s. reflexivity. Qed.

Lemma keeps_throw {A} e : keeps_routes (@throw A e).
Proof. intros s. reflexivity. Qed.

Lemma keeps_emit e : keeps_routes (emit e).
Proof. intros s. reflexivity. Qed.

Lemma keeps_get_trace : keeps_routes get_trace.
Proof. intros s. reflexivity. Qed.

Lemma keeps_get_urlStruct : keeps_routes get_urlStruct.
Proof. intros s. reflexivity. Qed.

Lemma keeps_bind {A B} (c : M A) (k : A -> M B) :
  keeps_routes c -> (forall a, keeps_routes (k a)) -> keeps_routes (bind c k).
Proof.
  intros Hc Hk s. unfold bind. specialize (Hc s).
  destruct (c s) as [[a|e] s']; simpl in *; [|assumption].
  rewrite Hk. assumption.
Qed.

End Frame.

(** Computations built from the primitives with [bind] and case analysis. *)
Ltac keeps :=
  repeat first
    [ apply keeps_bind; [|intros ?]
    | apply keeps_ret | apply keeps_throw | apply keeps_emit
    | apply keeps_get_trace | apply keeps_get_urlStruct
    | match goal with
      | |- keeps_routes (if ?b then _ else _) => destruct b
      | |- keeps_routes (match ?x with _ => _ end) => destruct x
      end ].

Section FrameOfProgram.

Variable host_parser : list N -> bool -> option (list N).

Lemma keeps_respondJSON request status obj :
  keeps_routes (jsonResponses.respondJSON request status obj).
Proof. unfold jsonResponses.respondJSON, writeHead, write, end_. keeps. Qed.

Lemma keeps_body f request : keeps_routes (body f request).
Proof.
  destruct f; simpl;
    unfold htmlResponses.getIndex, jsonResponses.success, jsonResponses.badRequest,
      jsonResponses.notFound, call_builtin, writeHead, write, end_;
    keeps; apply keeps_respondJSON.
Qed.

Lemma keeps_call v request : keeps_routes (call v request).
Proof. unfold call. keeps. apply keeps_body. Qed.

(** [onRequest] assigns to no property of the route object. *)
Lemma keeps_onRequest request : keeps_routes (onRequest host_parser request).
Proof. unfold onRequest, onRequest_with, urlStruct_get. keeps; apply keeps_call. Qed.

End FrameOfProgram.

(** ** The dispatcher *)

Section Dispatch.

Variable host_parser : list N -> bool -> option (list N).

(** A request whose URL does not parse: [new URL] throws before anything
    else happens. *)
Lemma serve_invalid request :
  parsedUrl host_parser request = None ->
  serve host_parser request = (Throw (TypeError "ERR_INVALID_URL"), after []).
Proof.
  unfold parsedUrl, base_text, serve, onRequest, onRequest_with. intros H. rewrite H.
  reflexivity.
Qed.

(** A request whose URL parses: the value found for the path name, or else
    the [notFound] property, is called with the request that carries the
    query object. *)
Lemma serve_parsed request u :
  parsedUrl host_parser request = Some u ->
  serve host_parser request =
    call (if ToBoolean (route (pathname u)) then route (pathname u)
          else route (js "notFound"))
      (set_query (fromEntries (searchParams u)) request) (fresh urlStruct).
Proof.
  unfold parsedUrl, base_text, serve, onRequest, onRequest_with, route. intros H.
  rewrite H.
  unfold urlStruct_get, bind, get_urlStruct, ret. simpl route_object.
  destruct (ToBoolean _); reflexivity.
Qed.

Lemma serve_handler request u f calls :
  parsedUrl host_parser request = Some u ->
  (if ToBoolean (route (pathname u)) then route (pathname u) else route (js "notFound"))
    = VFunction f ->
  (forall s, headersSent (trace s) = false ->
     body f (set_query (fromEntries (searchParams u)) request) s
       = (Normal tt, record calls s)) ->
  serve host_parser request = (Normal tt, after ([Enter f] ++ calls ++ [Leave f])).
Proof.
  intros Hu Hroute Hbody. rewrite (serve_parsed _ _ Hu), Hroute.
  rewrite (call_run _ _ calls) by (assumption || reflexivity). reflexivity.
Qed.

(** The routes. *)
Lemma route_success : route (js "/success") = VFunction Success.
Proof. reflexivity. Qed.
Lemma route_badRequest : route (js "/badRequest") = VFunction BadRequest.
Proof. reflexivity. Qed.
Lemma route_index : route (js "/") = VFunction GetIndex.
Proof. reflexivity. Qed.
Lemma route_notFound : route (js "notFound") = VFunction NotFound.
Proof. reflexivity. Qed.

(** No other string that is empty or starts with a slash names a property
    of the route object or of its prototype. *)
Lemma route_undefined p :
  p = [] \/ (exists p', p = ch "/" :: p') ->
  p <> js "/" -> p <> js "/success" -> p <> js "/badRequest" ->
  route p = VUndefined.
Proof.
  intros Hp H1 H2 H3. unfold route, Get.
  assert (Hown : own_property urlStruct p = None).
  { unfold urlStruct. simpl.
    repeat (case_decide; [try congruence|]); [|reflexivity].
    destruct Hp as [-> | [p' ->]]; discriminate. }
  rewrite Hown. unfold prototype_get.
  destruct Hp as [-> | [p' ->]]; [reflexivity|].
  case_decide; [discriminate|].
  case_decide as Hin; [|reflexivity].
  unfold prototype_methods in Hin. simpl in Hin.
  repeat (apply elem_of_cons in Hin as [Hin | Hin]; [discriminate Hin|]).
  apply elem_of_nil in Hin. destruct Hin.
Qed.

Lemma serve_success request u :
  parsedUrl host_parser request = Some u -> pathname u = js "/success" ->
  serve host_parser request = (Normal tt, after (json_exchange Success 200 success_payload)).
Proof.
  intros Hu Hp.
  rewrite (serve_handler request u Success (json_calls 200 success_payload) Hu).
  - reflexivity.
  - rewrite Hp. reflexivity.
  - intros s Hs. apply success_run, Hs.
Qed.

Lemma serve_badRequest request u :
  parsedUrl host_parser request = Some u -> pathname u = js "/badRequest" ->
  serve host_parser request =
    (Normal tt,
     after (if bool_decide (fromEntries (searchParams u) !! js "valid" = Some (js "true"))
            then json_exchange BadRequest 200 valid_payload
            else json_exchange BadRequest 400 invalid_payload)).
Proof.
  intros Hu Hp.
  rewrite (serve_handler request u BadRequest
             (if bool_decide (fromEntries (searchParams u) !! js "valid" = Some (js "true"))
              then json_calls 200 valid_payload else json_calls 400 invalid_payload) Hu).
  - destruct (bool_decide _); reflexivity.
  - rewrite Hp. reflexivity.
  - intros s Hs. apply badRequest_run; [reflexivity|exact Hs].
Qed.

Lemma serve_index request u :
  parsedUrl host_parser request = Some u -> pathname u = js "/" ->
  serve host_parser request = (Normal tt, after page_exchange).
Proof.
  intros Hu Hp.
  rewrite (serve_handler request u GetIndex
             [WriteHead 200 [(js "Content-Type", HString (js "text/html"))];
              Write IndexPage; End] Hu).
  - reflexivity.
  - rewrite Hp. reflexivity.
  - intros s Hs. apply getIndex_run, Hs.
Qed.

Lemma serve_notFound request u :
  parsedUrl host_parser request = Some u -> route (pathname u) = VUndefined ->
  serve host_parser request =
    (Normal tt, after (json_exchange NotFound 404 notFound_payload)).
Proof.
  intros Hu Hp.
  rewrite (serve_handler request u NotFound (json_calls 404 notFound_payload) Hu).
  - reflexivity.
  - rewrite Hp. reflexivity.
  - intros s Hs. apply notFound_run, Hs.
Qed.

(** The four outcomes of a request target whose URL parses. *)
Lemma serve_cases request u :
  request_target (url request) = true ->
  parsedUrl host_parser request = Some u ->
  serve host_parser request = (Normal tt, after page_exchange) /\ pathname u = js "/" \/
  (exists f status obj,
     serve host_parser request = (Normal tt, after (json_exchange f status obj)) /\
     pathname u <> js "/" /\
     (f, status, obj) ∈ [(Success, 200%Z, success_payload);
                         (BadRequest, 200%Z, valid_payload);
                         (BadRequest, 400%Z, invalid_payload);
                         (NotFound, 404%Z, notFound_payload)]).
Proof.
  intros Ht Hu.
  destruct (decide (pathname u = js "/")) as [H1|H1];
    [left; split; [apply (serve_index _ u)|]; assumption|right].
  destruct (decide (pathname u = js "/success")) as [H2|H2].
  { eexists _, _, _. split; [apply (serve_success _ u); assumption|].
    split; [assumption|repeat constructor]. }
  destruct (decide (pathname u = js "/badRequest")) as [H3|H3].
  { rewrite (serve_badRequest _ _ Hu H3). destruct (bool_decide _);
      eexists _, _, _; (split; [reflexivity|split; [assumption|repeat constructor]]). }
  eexists _, _, _. split.
  { apply (serve_notFound _ u); [assumption|].
    apply route_undefined; try assumption.
    apply pathname_segments. eapply parsedUrl_segments; eassumption. }
  split; [assumption|repeat constructor].
Qed.

End Dispatch.

(** ** Sessions *)

Section Sessions.

Variable host_parser : list N -> bool -> option (list N).

(** An accepted request is answered without an exception, and the route
    object is afterwards what it was. *)
Lemma accepted_answered request :
  accepted host_parser request ->
  (serve host_parser request).1 = Normal tt /\
  route_object (serve host_parser request).2 = urlStruct.
Proof.
  intros [Ht [u Hu]]. split; [|apply (keeps_onRequest host_parser request (fresh urlStruct))].
  destruct (serve_cases host_parser request u Ht Hu)
    as [[-> _]|(f & status & obj & -> & _)]; reflexivity.
Qed.

(** Accepted requests are answered one by one, each as if it were the
    first, and the session goes on after them. *)
Lemma session_accepted requests rest :
  Forall (accepted host_parser) requests ->
  session host_parser urlStruct (requests ++ rest) =
    map (answer host_parser) requests ++ session host_parser urlStruct rest.
Proof.
  induction 1 as [|request requests Hr _ IH]; [reflexivity|].
  destruct (accepted_answered request Hr) as [Hc Hs].
  cbn [app map session]. unfold answer at 1. unfold serve in *.
  destruct (onRequest host_parser request (fresh urlStruct)) as [c s].
  cbn [fst snd] in *. subst c. rewrite Hs, IH. reflexivity.
Qed.

Lemma session_accepted_cons request rest :
  accepted host_parser request ->
  session host_parser urlStruct (request :: rest) =
    answer host_parser request :: session host_parser urlStruct rest.
Proof.
  intros Hr. apply (session_accepted [request] rest). constructor; [exact Hr|constructor].
Qed.

(** A request whose URL is rejected ends the session. *)
Lemma session_rejected request rest :
  parsedUrl host_parser request = None ->
  session host_parser urlStruct (request :: rest) =
    [(Throw (TypeError "ERR_INVALID_URL"), [])].
Proof.
  intros H. cbn [session]. fold (serve host_parser request).
  rewrite (serve_invalid host_parser request H). reflexivity.
Qed.

End Sessions.

(** ** Properties of the server *)

(** C1: for every request whose path name is [/badRequest], the status is
    200 when the query object maps [valid] to the string [true]; in every
    other case (no such key, the empty string, any other value) the status
    is 400 and the body is the JSON text of a payload whose [id] is
    [badRequest]. *)
Theorem badRequest_status_by_valid
    (host_parser : list N -> bool -> option (list N)) request u :
  parsedUrl host_parser request = Some u ->
  pathname u = js "/badRequest" ->
  let query := fromEntries (searchParams u) in
  let t := trace (serve host_parser request).2 in
  (query !! js "valid" = Some (js "true") -> status_line t = [200%Z]) /\
  (query !! js "valid" <> Some (js "true") ->
   status_line t = [400%Z] /\
   written t = [Text (JSON_stringify invalid_payload)] /\
   get_property (js "id") invalid_payload = Some (js "badRequest")).
Proof.
  intros Hu Hp query t. subst t. rewrite (serve_badRequest _ _ _ Hu Hp). fold query.
  split; intros Hq.
  - rewrite bool_decide_eq_true_2 by assumption. reflexivity.
  - rewrite bool_decide_eq_false_2 by assumption. repeat split.
Qed.

Lemma badRequest_status_by_valid_witness :
  status_line (trace (serve plain_host_parser (get "/badRequest?valid=true")).2) = [200%Z] /\
  status_line (trace (serve plain_host_parser (get "/badRequest?valid=")).2) = [400%Z].
Proof.
  split.
  - eapply (badRequest_status_by_valid plain_host_parser (get "/badRequest?valid=true"));
      vm_compute; reflexivity.
  - eapply (badRequest_status_by_valid plain_host_parser (get "/badRequest?valid="));
      [vm_compute; reflexivity|vm_compute; reflexivity|vm_compute; discriminate].
Defined.

(** C3, as amended: for every request whose path name is [/success] the
    status is 200 and the body is the JSON text of the payload whose only
    field, [message], is the string of the source, which ends without a full
    stop. *)
Theorem success_status_and_message
    (host_parser : list N -> bool -> option (list N)) request u :
  parsedUrl host_parser request = Some u ->
  pathname u = js "/success" ->
  let t := trace (serve host_parser request).2 in
  status_line t = [200%Z] /\
  written t = [Text (JSON_stringify [(js "message", js "This is a successful response")])].
Proof.
  intros Hu Hp t. subst t. rewrite (serve_success _ _ _ Hu Hp). split; reflexivity.
Qed.

Lemma success_status_and_message_witness :
  status_line (trace (serve plain_host_parser (get "/success")).2) = [200%Z] /\
  written (trace (serve plain_host_parser (get "/success")).2) =
    [Text (JSON_stringify [(js "message", js "This is a successful response")])].
Proof.
  eapply (success_status_and_message plain_host_parser (get "/success"));
    vm_compute; reflexivity.
Defined.

(** C3, as stated, fails on [GET /success]: the message of the body is not
    the string with the full stop. *)
Lemma success_message_has_no_full_stop :
  written (trace (serve plain_host_parser (get "/success")).2) =
    [Text (JSON_stringify [(js "message", js "This is a successful response")])] /\
  bool_decide
    (written (trace (serve plain_host_parser (get "/success")).2) =
       [Text (JSON_stringify [(js "message", js "This is a successful response.")])])
    = false /\
  eqs (js "This is a successful response") (js "This is a successful response.") = false.
Proof. vm_compute. repeat split. Qed.

(** C4: for every response [respondJSON] emits, the [Content-Length] field
    is the number of bytes of the UTF-8 encoding of the serialised payload,
    which is what [write] sends, and the [Content-Type] field is
    [application/json]. *)
Theorem respondJSON_content_length request status obj s :
  headersSent (trace s) = false -> (100 <= status <= 999)%Z -> wf_object obj ->
  let content := JSON_stringify obj in
  jsonResponses.respondJSON request status obj s =
    (Normal tt,
     record [WriteHead status
               [(js "Content-Type", HString (js "application/json"));
                (js "Content-Length", HNumber (N.of_nat (length (utf8_encode content))))];
             Write (Text content); End] s).
Proof.
  intros Ht Hs Hobj content.
  rewrite respondJSON_run by assumption.
  unfold json_calls, json_head. fold content.
  rewrite (Buffer_byteLength_utf8 content) by (apply JSON_stringify_wf, Hobj).
  reflexivity.
Qed.

Lemma respondJSON_content_length_witness :
  let content := JSON_stringify [(js "message", [233; 8364])] in
  jsonResponses.respondJSON (get "/") 200 [(js "message", [233; 8364])] (fresh urlStruct) =
    (Normal tt,
     record [WriteHead 200
               [(js "Content-Type", HString (js "application/json"));
                (js "Content-Length", HNumber (N.of_nat (length (utf8_encode content))))];
             Write (Text content); End] (fresh urlStruct)).
Proof.
  apply respondJSON_content_length; [reflexivity|lia|].
  repeat constructor.
Defined.

(** The byte length is not the number of code units: two units, five bytes. *)
Example byte_length_not_string_length :
  String_length [233; 8364] = 2 /\ Buffer_byteLength [233; 8364] = 5 /\
  length (utf8_encode [233; 8364]) = 5%nat.
Proof. repeat split. Qed.

(** C2: for every request whose path name is none of [/], [/success] and
    [/badRequest], the dispatcher calls [notFound], and the response has
    status 404 and a JSON body whose [id] is [notFound].  The route object is
    read with the path name as it is, so [/Success] and [/success/] find
    nothing. *)
Theorem unmatched_path_not_found
    (host_parser : list N -> bool -> option (list N)) request u :
  request_target (url request) = true ->
  parsedUrl host_parser request = Some u ->
  pathname u <> js "/" -> pathname u <> js "/success" -> pathname u <> js "/badRequest" ->
  let t := trace (serve host_parser request).2 in
  (entered t = [NotFound] /\ status_line t = [404%Z] /\
   written t = [Text (JSON_stringify notFound_payload)] /\
   get_property (js "id") notFound_payload = Some (js "notFound")) /\
  route (js "/Success") = VUndefined /\ route (js "/success/") = VUndefined.
Proof.
  intros Ht Hu H1 H2 H3 t. subst t.
  rewrite (serve_notFound _ _ _ Hu).
  - repeat split.
  - apply route_undefined; try assumption.
    apply pathname_segments. eapply parsedUrl_segments; eassumption.
Qed.

Lemma unmatched_path_not_found_witness :
  status_line (trace (serve plain_host_parser (get "/Success")).2) = [404%Z] /\
  status_line (trace (serve plain_host_parser (get "/success/")).2) = [404%Z] /\
  entered (trace (serve plain_host_parser (get "/missing?valid=true")).2) = [NotFound].
Proof.
  split; [|split].
  - eapply (unmatched_path_not_found plain_host_parser (get "/Success"));
      vm_compute; (reflexivity || discriminate).
  - eapply (unmatched_path_not_found plain_host_parser (get "/success/"));
      vm_compute; (reflexivity || discriminate).
  - eapply (unmatched_path_not_found plain_host_parser (get "/missing?valid=true"));
      vm_compute; (reflexivity || discriminate).
Defined.

(** C5, as stated, fails on [GET //]: the URL has an empty host, [new URL]
    throws, and [onRequest] ends with the exception and no response. *)
Lemma empty_host_throws :
  request_target (url (get "//")) = true /\
  serve plain_host_parser (get "//") = (Throw (TypeError "ERR_INVALID_URL"), after []).
Proof. vm_compute. split; reflexivity. Qed.

(** C5, as amended: a request whose URL [new URL] rejects makes [onRequest]
    throw a [TypeError] before anything is written; every request whose URL
    parses is answered without an exception, with the client page for the
    path name [/] and otherwise with a JSON response of status 200, 400 or
    404. *)
Theorem parsed_request_answered
    (host_parser : list N -> bool -> option (list N)) request :
  request_target (url request) = true ->
  match parsedUrl host_parser request with
  | None => serve host_parser request = (Throw (TypeError "ERR_INVALID_URL"), after [])
  | Some u =>
    (pathname u = js "/" /\ serve host_parser request = (Normal tt, after page_exchange)) \/
    (pathname u <> js "/" /\
     exists f status obj,
       (status = 200 \/ status = 400 \/ status = 404)%Z /\
       serve host_parser request = (Normal tt, after (json_exchange f status obj)))
  end.
Proof.
  intros Ht. destruct (parsedUrl host_parser request) as [u|] eqn:Hu;
    [|apply serve_invalid, Hu].
  destruct (serve_cases host_parser request u Ht Hu)
    as [[Hs Hp] | (f & status & obj & Hs & Hp & Hin)]; [left; split; assumption|right].
  split; [assumption|]. exists f, status, obj. split; [|assumption].
  repeat (apply elem_of_cons in Hin as [Hin | Hin]; [injection Hin as -> -> ->; lia|]).
  by apply elem_of_nil in Hin.
Qed.

Lemma parsed_request_answered_witness :
  match parsedUrl plain_host_parser (get "/badRequest") with
  | None =>
    serve plain_host_parser (get "/badRequest")
      = (Throw (TypeError "ERR_INVALID_URL"), after [])
  | Some u =>
    (pathname u = js "/" /\
     serve plain_host_parser (get "/badRequest") = (Normal tt, after page_exchange)) \/
    (pathname u <> js "/" /\
     exists f status obj,
       (status = 200 \/ status = 400 \/ status = 404)%Z /\
       serve plain_host_parser (get "/badRequest")
         = (Normal tt, after (json_exchange f status obj)))
  end.
Proof. apply (parsed_request_answered plain_host_parser (get "/badRequest")). reflexivity. Defined.

(** C7, as stated, fails on [GET //?valid=true]: no handler is entered and
    no call is made on the response object. *)
Lemma no_handler_for_invalid_url :
  request_target (url (get "//?valid=true")) = true /\
  entered (trace (serve plain_host_parser (get "//?valid=true")).2) = [] /\
  response_calls (trace (serve plain_host_parser (get "//?valid=true")).2) = [].
Proof. vm_compute. repeat split. Qed.

(** C7, as amended: for every request whose URL parses, one handler is
    entered, and the calls on the response object are the handler's: one
    [writeHead], one [write] and one [end], in that order, between the
    handler's entry and its return. *)
Theorem one_handler_one_response
    (host_parser : list N -> bool -> option (list N)) request u :
  request_target (url request) = true ->
  parsedUrl host_parser request = Some u ->
  exists f status headers c,
    f ∈ [GetIndex; Success; BadRequest; NotFound] /\
    serve host_parser request =
      (Normal tt, after [Enter f; WriteHead status headers; Write c; End; Leave f]).
Proof.
  intros Ht Hu.
  destruct (serve_cases host_parser request u Ht Hu)
    as [[Hs Hp] | (f & status & obj & Hs & Hp & Hin)].
  - eexists _, _, _, _. split; [|exact Hs]. repeat constructor.
  - eexists f, _, _, _. split; [|exact Hs].
    repeat (apply elem_of_cons in Hin as [Hin | Hin];
            [injection Hin as -> -> ->; repeat constructor|]).
    by apply elem_of_nil in Hin.
Qed.

Lemma one_handler_one_response_witness :
  exists f status headers c,
    f ∈ [GetIndex; Success; BadRequest; NotFound] /\
    serve plain_host_parser (get "/") =
      (Normal tt, after [Enter f; WriteHead status headers; Write c; End; Leave f]).
Proof.
  eapply (one_handler_one_response plain_host_parser (get "/")); vm_compute; reflexivity.
Defined.

(** C6: for every request whose URL parses, the request the dispatcher
    hands to the handler is the request with a [query] object added, in
    which a key of the query string is a key once, bound to the value of
    the key's last pair in the query string.  The handler gets this request
    whatever the handler is and does: the listener is the call of the value
    read from the route object on this request. *)
Theorem query_last_value_wins
    (host_parser : list N -> bool -> option (list N)) request u k v before after :
  parsedUrl host_parser request = Some u ->
  searchParams u = before ++ (k, v) :: after ->
  k ∉ after.*1 ->
  exists passed query,
    request_query passed = Some query /\
    query !! k = Some v /\
    length (filter (fun k' => k' = k) (keys query)) = 1%nat /\
    (method passed, url passed, headers_host passed, connection_encrypted passed) =
      (method request, url request, headers_host request, connection_encrypted request) /\
    forall invoke s,
      onRequest_with host_parser invoke request s =
        invoke
          (if ToBoolean (Get VFunction (own_property (route_object s)) (pathname u))
           then Get VFunction (own_property (route_object s)) (pathname u)
           else Get VFunction (own_property (route_object s)) (js "notFound"))
          passed s.
Proof.
  intros Hu Hsplit Hlast.
  exists (set_query (fromEntries (searchParams u)) request), (fromEntries (searchParams u)).
  assert (Hk : fromEntries (searchParams u) !! k = Some v).
  { rewrite Hsplit. apply fromEntries_last, Hlast. }
  split; [reflexivity|]. split; [exact Hk|]. split; [eapply keys_once, Hk|].
  split; [reflexivity|].
  intros invoke s. unfold onRequest_with.
  unfold parsedUrl, base_text in Hu. rewrite Hu.
  unfold urlStruct_get, bind, get_urlStruct, ret.
  destruct (ToBoolean _); reflexivity.
Qed.

Lemma query_last_value_wins_witness :
  exists passed query,
    request_query passed = Some query /\
    query !! js "valid" = Some (js "true") /\
    length (filter (fun k' => k' = js "valid") (keys query)) = 1%nat /\
    (method passed, url passed, headers_host passed, connection_encrypted passed) =
      (js "GET", js "/badRequest?valid=false&x=1&valid=true",
       Some (js "localhost:3000"), false) /\
    forall invoke s,
      onRequest_with plain_host_parser invoke
        (get "/badRequest?valid=false&x=1&valid=true") s =
        invoke
          (if ToBoolean (Get VFunction (own_property (route_object s)) (js "/badRequest"))
           then Get VFunction (own_property (route_object s)) (js "/badRequest")
           else Get VFunction (own_property (route_object s)) (js "notFound"))
          passed s.
Proof.
  apply (query_last_value_wins plain_host_parser
           (get "/badRequest?valid=false&x=1&valid=true")
           {| scheme := js "http"; host := Some (js "localhost"); port := Some 3000;
              path := Segments [js "badRequest"];
              query := Some (js "valid=false&x=1&valid=true"); fragment := None |}
           (js "valid") (js "true") [(js "valid", js "false"); (js "x", js "1")] []).
  - vm_compute. reflexivity.
  - vm_compute. reflexivity.
  - apply not_elem_of_nil.
Defined.

(** The same request gets an answer the first time and none the second
    time when a request with a rejected URL comes in between: the uncaught
    exception has ended the process. *)
Lemma no_answer_after_uncaught_exception :
  session plain_host_parser urlStruct [get "/success"; get "//"; get "/success"] =
    [(Normal tt, json_exchange Success 200 success_payload);
     (Throw (TypeError "ERR_INVALID_URL"), [])].
Proof. vm_compute. reflexivity. Qed.

(** C8: as long as the requests of a session are ones the listener takes to
    a handler, a request issued twice is answered twice in the same way,
    which is the way it is answered as the first request of a process,
    whatever the session handles before, in between and after; the answer
    is no exception, and the route object is afterwards what it was.  A
    request whose URL is rejected ends the session: the requests after it
    are not answered. *)
Theorem same_request_same_response
    (host_parser : list N -> bool -> option (list N)) before between after request :
  Forall (accepted host_parser) before ->
  accepted host_parser request ->
  Forall (accepted host_parser) between ->
  session host_parser urlStruct (before ++ request :: between ++ request :: after) =
    map (answer host_parser) before ++ answer host_parser request ::
    map (answer host_parser) between ++ answer host_parser request ::
    session host_parser urlStruct after /\
  (answer host_parser request).1 = Normal tt /\
  route_object (serve host_parser request).2 = urlStruct /\
  forall rejected,
    parsedUrl host_parser rejected = None ->
    session host_parser urlStruct (before ++ rejected :: request :: after) =
      map (answer host_parser) before ++ [(Throw (TypeError "ERR_INVALID_URL"), [])].
Proof.
  intros Hbefore Hrequest Hbetween.
  destruct (accepted_answered host_parser request Hrequest) as [Hc Hs].
  split; [|split; [exact Hc|split; [exact Hs|]]].
  - rewrite (session_accepted host_parser before _ Hbefore).
    rewrite (session_accepted_cons host_parser request _ Hrequest).
    rewrite (session_accepted host_parser between _ Hbetween).
    rewrite (session_accepted_cons host_parser request _ Hrequest).
    reflexivity.
  - intros rejected Hrejected.
    rewrite (session_accepted host_parser before _ Hbefore).
    rewrite (session_rejected host_parser rejected _ Hrejected). reflexivity.
Qed.

Lemma same_request_same_response_witness :
  session plain_host_parser urlStruct
    ([get "/"] ++ get "/badRequest?valid=true" :: [get "/nothing"] ++
     get "/badRequest?valid=true" :: [get "//"; get "/success"]) =
    map (answer plain_host_parser) [get "/"] ++
    answer plain_host_parser (get "/badRequest?valid=true") ::
    map (answer plain_host_parser) [get "/nothing"] ++
    answer plain_host_parser (get "/badRequest?valid=true") ::
    session plain_host_parser urlStruct [get "//"; get "/success"] /\
  (answer plain_host_parser (get "/badRequest?valid=true")).1 = Normal tt /\
  route_object (serve plain_host_parser (get "/badRequest?valid=true")).2 = urlStruct /\
  forall rejected,
    parsedUrl plain_host_parser rejected = None ->
    session plain_host_parser urlStruct
      ([get "/"] ++ rejected :: get "/badRequest?valid=true" :: [get "//"; get "/success"]) =
      map (answer plain_host_parser) [get "/"] ++ [(Throw (TypeError "ERR_INVALID_URL"), [])].
Proof.
  apply (same_request_same_response plain_host_parser
           [get "/"] [get "/nothing"] [get "//"; get "/success"]
           (get "/badRequest?valid=true")).
  - repeat constructor. vm_compute. eexists. reflexivity.
  - split; [reflexivity|]. vm_compute. eexists. reflexivity.
  - repeat constructor. vm_compute. eexists. reflexivity.
Defined.

(** C9: the method of a request does not enter its answer. *)
Theorem method_irrelevant
    (host_parser : list N -> bool -> option (list N)) request m :
  serve host_parser (set_method m request) = serve host_parser request.
Proof.
  unfold serve, onRequest, onRequest_with.
  cbn [set_method url headers_host connection_encrypted].
  destruct (URL_new _ _ _) as [u|]; [|reflexivity].
  unfold urlStruct_get, bind, get_urlStruct, ret. simpl route_object.
  generalize (Get VFunction (own_property urlStruct) (pathname u)). intros v.
  destruct (ToBoolean v); [destruct v|]; reflexivity.
Qed.

(** C10: a request to [/badRequest] whose query object maps [valid] to the
    string [true] is answered with a body whose only field is [message];
    and a JSON handler puts the field [id] into its payload exactly when it
    answers with status 400 or 404. *)
Theorem id_field_marks_errors
    (host_parser : list N -> bool -> option (list N)) :
  (forall request u,
     parsedUrl host_parser request = Some u ->
     pathname u = js "/badRequest" ->
     fromEntries (searchParams u) !! js "valid" = Some (js "true") ->
     written (trace (serve host_parser request).2) = [Text (JSON_stringify valid_payload)] /\
     valid_payload.*1 = [js "message"]) /\
  (forall f request q s,
     f ∈ [Success; BadRequest; NotFound] ->
     request_query request = Some q -> headersSent (trace s) = false ->
     exists status obj,
       body f request s = (Normal tt, record (json_calls status obj) s) /\
       (has_property (js "id") obj = true <-> (status = 400 \/ status = 404)%Z)).
Proof.
  split.
  - intros request u Hu Hp Hq. rewrite (serve_badRequest _ _ _ Hu Hp).
    rewrite bool_decide_eq_true_2 by assumption. split; reflexivity.
  - intros f request q s Hf Hq Ht.
    repeat (apply elem_of_cons in Hf as [-> | Hf]); [| | |by apply elem_of_nil in Hf].
    + exists 200%Z, success_payload. split; [apply success_run, Ht|].
      split; [discriminate|lia].
    + simpl body. rewrite (badRequest_run request q s Hq Ht).
      destruct (bool_decide _).
      * exists 200%Z, valid_payload. split; [reflexivity|]. split; [discriminate|lia].
      * exists 400%Z, invalid_payload. split; [reflexivity|]. split; [lia|reflexivity].
    + exists 404%Z, notFound_payload. split; [apply notFound_run, Ht|].
      split; [lia|reflexivity].
Qed.

Lemma id_field_marks_errors_witness :
  written (trace (serve plain_host_parser (get "/badRequest?valid=true")).2) =
    [Text (JSON_stringify valid_payload)] /\
  valid_payload.*1 = [js "message"].
Proof.
  eapply (proj1 (id_field_marks_errors plain_host_parser)
            (get "/badRequest?valid=true")); vm_compute; reflexivity.
Defined.

(** ** Further properties *)

Section MoreOfTheWriter.

Import jsonResponses.

(** X1: [respondJSON] answers completely or not at all: when it throws,
    nothing was called on the response object; it throws exactly when the
    head was already sent or the status code, truncated to 32 bits as
    [writeHead] does, is not within 100..999; and when it does not throw,
    it has made its three calls, with the truncated status code. *)
Theorem respondJSON_all_or_nothing request status obj s :
  (forall e s', respondJSON request status obj s = (Throw e, s') -> s' = s) /\
  ((exists e, respondJSON request status obj s = (Throw e, s)) <->
   headersSent (trace s) = true \/
   (ToInt32 status < 100 \/ 999 < ToInt32 status)%Z) /\
  (forall s', respondJSON request status obj s = (Normal tt, s') ->
   s' = record (json_calls (ToInt32 status) obj) s).
Proof.
  destruct (headersSent (trace s)) eqn:Hsent.
  - assert (H : respondJSON request status obj s
                  = (Throw (Error "ERR_HTTP_HEADERS_SENT"), s)).
    { unfold respondJSON, writeHead, bind, get_trace. rewrite Hsent. reflexivity. }
    rewrite H. split; [intros e s' [= _ <-]; reflexivity|].
    split; [|discriminate].
    split; [intros _; left; reflexivity|intros _; eexists; reflexivity].
  - destruct (decide (100 <= ToInt32 status <= 999)%Z) as [Hr|Hr].
    + rewrite respondJSON_run_truncated by assumption. split; [discriminate|].
      split; [|intros s' [= <-]; reflexivity].
      split; [intros [e He]; discriminate He|intros [H|H]; [discriminate|lia]].
    + rewrite respondJSON_bad_status by (assumption || lia).
      split; [intros e s' [= _ <-]; reflexivity|].
      split; [|discriminate].
      split; [intros _; right; lia|intros _; eexists; reflexivity].
Qed.

(** X2: a second [respondJSON] on the same response object throws before it
    calls anything, so the first response stands as it was sent. *)
Theorem respondJSON_twice request status obj status' obj' s :
  headersSent (trace s) = false -> (100 <= status <= 999)%Z ->
  (respondJSON request status obj ;; respondJSON request status' obj') s =
    (Throw (Error "ERR_HTTP_HEADERS_SENT"), record (json_calls status obj) s).
Proof.
  intros Hsent Hrange. unfold bind at 1. rewrite respondJSON_run by assumption.
  unfold respondJSON, writeHead, bind, get_trace.
  replace (headersSent (trace (record (json_calls status obj) s))) with true;
    [reflexivity|].
  unfold record, headersSent. simpl trace. rewrite existsb_app. simpl.
  symmetry. apply orb_true_r.
Qed.

Lemma respondJSON_twice_witness :
  (respondJSON (get "/") 200 success_payload ;; respondJSON (get "/") 404 notFound_payload)
    (fresh urlStruct) =
    (Throw (Error "ERR_HTTP_HEADERS_SENT"),
     record (json_calls 200 success_payload) (fresh urlStruct)).
Proof. apply respondJSON_twice; [reflexivity|lia]. Defined.

End MoreOfTheWriter.

(** X3: the number of bytes is never below the number of code units, and
    the two are equal exactly for a string of ASCII units. *)
Theorem byteLength_and_length s :
  String_length s <= Buffer_byteLength s /\
  (Buffer_byteLength s = String_length s <-> Forall (fun u => u < 0x80) s).
Proof.
  unfold String_length.
  remember (length s) as n eqn:Hn. revert s Hn.
  induction (lt_wf n) as [n _ IH]. intros s Hn.
  destruct s as [|u rest]; [subst n; split; [reflexivity|split; [constructor|reflexivity]]|].
  assert (Hrest := IH (length rest) ltac:(simpl in Hn; lia) rest eq_refl).
  destruct Hrest as [Hle Hiff]. subst n.
  simpl Buffer_byteLength. simpl length.
  destruct (is_lead u) eqn:Hl.
  - assert (Hu : ~ u < 128) by (unfold is_lead in Hl; unbool; lia).
    destruct rest as [|v rest'].
    + split; [simpl; lia|].
      split; [simpl; lia|intros H; apply Forall_cons in H as [H _]; lia].
    + destruct (is_trail v).
      * assert (Hrest' := IH (length rest') ltac:(simpl; lia) rest' eq_refl).
        destruct Hrest' as [Hle' _]. simpl length in *.
        split; [lia|].
        split; [lia|intros H; apply Forall_cons in H as [H _]; lia].
      * split; [lia|].
        split; [lia|intros H; apply Forall_cons in H as [H _]; lia].
  - destruct (u <? 128) eqn:H1; [|destruct (u <? 2048) eqn:H2]; unbool.
    + split; [lia|]. rewrite Forall_cons. rewrite <- Hiff. lia.
    + split; [lia|]. rewrite Forall_cons. lia.
    + split; [lia|]. rewrite Forall_cons. lia.
Qed.

(** X4: the port is the first of [PORT] and [NODE_PORT] that is set to a
    string that is not empty, and the number 3000 when there is none; it is
    never the empty string. *)
Theorem port_precedence (env : gmap jsstring jsstring) :
  (forall s, env !! js "PORT" = Some s -> s <> [] -> config.port env = config.PortText s) /\
  (forall s, (env !! js "PORT" = None \/ env !! js "PORT" = Some []) ->
     env !! js "NODE_PORT" = Some s -> s <> [] -> config.port env = config.PortText s) /\
  ((env !! js "PORT" = None \/ env !! js "PORT" = Some []) ->
   (env !! js "NODE_PORT" = None \/ env !! js "NODE_PORT" = Some []) ->
   config.port env = config.PortNumber 3000) /\
  config.port env <> config.PortText [].
Proof.
  unfold config.port, ToBoolean.
  destruct (env !! js "PORT") as [p|]; [destruct (decide (p = [])) as [->|Hp]|];
    (destruct (env !! js "NODE_PORT") as [q|]; [destruct (decide (q = [])) as [->|Hq]|]);
    rewrite ?(bool_decide_eq_true_2 ([] = [])) by reflexivity;
    rewrite ?(bool_decide_eq_false_2 (p = [])) by assumption;
    rewrite ?(bool_decide_eq_false_2 (q = [])) by assumption;
    simpl; (split; [|split; [|split]]);
    try (intros s H; injection H as ->; congruence);
    try (intros s H; discriminate H);
    try (intros s [H|H] H'; try discriminate H; try discriminate H';
         try (injection H as ->); try (injection H' as ->); congruence);
    try (intros [H|H] [H'|H']; try discriminate H; try discriminate H';
         try (injection H as ->); try (injection H' as ->); congruence);
    try congruence; try discriminate.
Qed.

Section MoreOfTheLookup.

Variable host_parser : list N -> bool -> option (list N).

(** X5: for a request target the HTTP parser hands to the listener, the read
    [urlStruct[pathname]] yields one of the three route handlers or
    undefined, never a method the route object inherits and never the
    handler under the key [notFound] (which is read by name only). *)
Theorem lookup_reaches_routes_only request u :
  request_target (url request) = true ->
  parsedUrl host_parser request = Some u ->
  route (pathname u) ∈
    [VFunction GetIndex; VFunction Success; VFunction BadRequest; VUndefined].
Proof.
  intros Ht Hu.
  destruct (decide (pathname u = js "/")) as [->|H1]; [repeat constructor|].
  destruct (decide (pathname u = js "/success")) as [->|H2]; [repeat constructor|].
  destruct (decide (pathname u = js "/badRequest")) as [->|H3]; [repeat constructor|].
  rewrite route_undefined; [repeat constructor| |assumption..].
  apply pathname_segments. eapply parsedUrl_segments; eassumption.
Qed.

Lemma with_authority_scheme sch s u :
  with_authority host_parser sch s = Some u -> scheme u = sch.
Proof. unfold with_authority. intros H. repeat case_match; simplify_eq. reflexivity. Qed.

Lemma base_URL_special request b :
  base_URL host_parser request = Some b ->
  is_special (scheme b) = true /\ has_segments b.
Proof.
  intros H. split; [|eapply base_segments; exact H].
  unfold base_URL, base_text in H.
  rewrite prepare_base, parse_base in H
    by (destruct (connection_encrypted request); [right|left]; reflexivity).
  apply with_authority_scheme in H. rewrite H.
  destruct (connection_encrypted request); reflexivity.
Qed.

Lemma port_state_fails sch1 sch2 buffer :
  port_state sch1 buffer = None -> port_state sch2 buffer = None.
Proof. unfold port_state. intros H. repeat case_match; simplify_eq; reflexivity. Qed.

Lemma authority_special sch1 sch2 s :
  is_special sch1 = true -> is_special sch2 = true ->
  match authority host_parser sch1 s, authority host_parser sch2 s with
  | Some (h1, _, r1), Some (h2, _, r2) => h1 = h2 /\ r1 = r2
  | None, None => True
  | _, _ => False
  end.
Proof.
  intros H1 H2. unfold authority. rewrite H1, H2.
  destruct (split_at _ s) as [auth rest].
  destruct (after_credentials auth) as [seen hostport].
  destruct (seen && eqs hostport []); [exact I|].
  destruct (split_host false hostport) as [buffer [port_text|]].
  - destruct (eqs buffer []); [exact I|].
    destruct (host_parser buffer (negb true)); [|exact I].
    destruct (port_state sch1 port_text) eqn:P1, (port_state sch2 port_text) eqn:P2;
      try (split; reflexivity); try exact I.
    + apply (port_state_fails _ sch1) in P2. congruence.
    + apply (port_state_fails _ sch2) in P1. congruence.
  - destruct (true && eqs buffer []); [exact I|].
    destruct (host_parser buffer (negb true)); [split; reflexivity|exact I].
Qed.

Lemma with_authority_special sch1 sch2 s :
  is_special sch1 = true -> is_special sch2 = true ->
  same_resource (with_authority host_parser sch1 s) (with_authority host_parser sch2 s).
Proof.
  intros H1 H2. pose proof (authority_special sch1 sch2 s H1 H2) as H.
  unfold with_authority. rewrite H1, H2.
  destruct (authority host_parser sch1 s) as [[[h1 p1] r1]|],
           (authority host_parser sch2 s) as [[[h2 p2] r2]|];
    try contradiction; [|exact I].
  destruct H as [-> ->].
  destruct (path_start true false r2) as [segments rest'].
  destruct (query_fragment true rest'). split; reflexivity.
Qed.

Lemma with_path_special sch1 sch2 h1 h2 p1 p2 s :
  is_special sch1 = true -> is_special sch2 = true ->
  same_resource (Some (with_path sch1 h1 p1 false s [] []))
                (Some (with_path sch2 h2 p2 false s [] [])).
Proof.
  intros H1 H2. unfold with_path. rewrite H1, H2.
  destruct (path_state true false s [] []) as [segments rest].
  destruct (query_fragment true rest). split; reflexivity.
Qed.

(** Against two special bases, a reference that starts with a slash names
    the same path and query. *)
Lemma relative_slash b1 b2 x :
  is_special (scheme b1) = true -> is_special (scheme b2) = true ->
  same_resource (relative host_parser b1 (ch "/" :: x))
                (relative host_parser b2 (ch "/" :: x)).
Proof.
  intros H1 H2. unfold relative. rewrite H1, H2.
  change (is_separator true (ch "/")) with true. cbv iota.
  destruct x as [|c' rest']; [apply with_path_special; assumption|].
  simpl andb. destruct (is_separator true c') eqn:Hsep.
  - apply with_authority_special; assumption.
  - assert (Hc : (c' =? ch "/") = false).
    { unfold is_separator in Hsep. apply orb_false_iff in Hsep as [Hsep _]. exact Hsep. }
    rewrite Hc. apply with_path_special; assumption.
Qed.

Lemma call_reads_query v q r1 r2 s :
  call v (set_query q r1) s = call v (set_query q r2) s.
Proof. destruct v; reflexivity. Qed.

Lemma serve_same_resource r1 r2 :
  same_resource (parsedUrl host_parser r1) (parsedUrl host_parser r2) ->
  serve host_parser r1 = serve host_parser r2.
Proof.
  intros H.
  destruct (parsedUrl host_parser r1) as [u1|] eqn:Hu1,
           (parsedUrl host_parser r2) as [u2|] eqn:Hu2; try contradiction.
  - destruct H as [Hpath Hquery].
    rewrite (serve_parsed _ _ _ Hu1), (serve_parsed _ _ _ Hu2).
    unfold pathname, searchParams. rewrite Hpath, Hquery. apply call_reads_query.
  - rewrite !serve_invalid by assumption. reflexivity.
Qed.

(** X6: for a request target in origin form the answer does not depend on
    the Host header or on whether the connection is encrypted, as long as
    both requests have a base URL that parses. *)
Theorem host_and_protocol_irrelevant r1 r2 rest :
  url r1 = ch "/" :: rest -> url r2 = ch "/" :: rest ->
  is_Some (base_URL host_parser r1) -> is_Some (base_URL host_parser r2) ->
  serve host_parser r1 = serve host_parser r2.
Proof.
  intros Hu1 Hu2 [b1 Hb1] [b2 Hb2]. apply serve_same_resource.
  unfold parsedUrl, URL_new. fold (base_URL host_parser r1) (base_URL host_parser r2).
  rewrite Hb1, Hb2, Hu1, Hu2. rewrite prepare_plain by reflexivity.
  apply base_URL_special in Hb1 as [S1 [l1 P1]], Hb2 as [S2 [l2 P2]].
  unfold basic_URL_parser. change (split_scheme (ch "/" :: prepare_rest rest)) with
    (@None (list N * list N)). cbv iota. rewrite P1, P2.
  apply relative_slash; assumption.
Qed.

End MoreOfTheLookup.

Lemma lookup_reaches_routes_only_witness :
  route (js "/badRequest") ∈
    [VFunction GetIndex; VFunction Success; VFunction BadRequest; VUndefined].
Proof.
  change (js "/badRequest") with
    (pathname {| scheme := js "http"; host := Some (js "localhost"); port := Some 3000;
                 path := Segments [js "badRequest"]; query := Some (js "x=1");
                 fragment := None |}).
  apply (lookup_reaches_routes_only plain_host_parser (get "/badRequest?x=1"));
    vm_compute; reflexivity.
Defined.

Lemma host_and_protocol_irrelevant_witness :
  serve plain_host_parser (get "/badRequest?valid=true") =
  serve plain_host_parser
    {| method := js "GET"; url := js "/badRequest?valid=true";
       headers_host := Some (js "example.org"); connection_encrypted := true;
       request_query := None |}.
Proof.
  apply (host_and_protocol_irrelevant plain_host_parser _ _ (js "badRequest?valid=true"));
    try reflexivity; vm_compute; eexists; reflexivity.
Defined.

Section MoreOfTheQuery.

Variable host_parser : list N -> bool -> option (list N).

Lemma prepare_rest_all s : forallb plain s = true -> prepare_rest s = s.
Proof.
  induction s as [|c s IH]; intros H; [reflexivity|].
  simpl in H. apply andb_true_iff in H as [Hc Hs].
  rewrite prepare_rest_plain by assumption. rewrite IH by assumption. reflexivity.
Qed.

Lemma split_at_all stop s :
  forallb (fun c => negb (stop c)) s = true -> split_at stop s = (s, []).
Proof.
  induction s as [|c s IH]; intros H; [reflexivity|].
  simpl in H. apply andb_true_iff in H as [Hc Hs]. apply negb_true_iff in Hc.
  simpl. rewrite Hc, IH by assumption. reflexivity.
Qed.

Lemma split_on_cons d s : exists first others, split_on d s = first :: others.
Proof.
  induction s as [|c s (first & others & IH)]; [eexists _, _; reflexivity|].
  simpl. rewrite IH. destruct (c =? d); eexists _, _; reflexivity.
Qed.

(** The sequences of two texts joined by the separator are the sequences
    of the one and then those of the other. *)
Lemma split_on_app d a b : split_on d (a ++ d :: b) = split_on d a ++ split_on d b.
Proof.
  induction a as [|c a IH].
  - simpl. destruct (split_on_cons d b) as (first & others & ->).
    rewrite N.eqb_refl. reflexivity.
  - simpl. rewrite IH.
    destruct (split_on_cons d a) as (first & others & ->). simpl.
    destruct (c =? d); reflexivity.
Qed.

Lemma urlencoded_parse_app a b :
  urlencoded_parse (a ++ ch "&" :: b) = urlencoded_parse a ++ urlencoded_parse b.
Proof.
  unfold urlencoded_parse. rewrite split_on_app, List.filter_app, map_app. reflexivity.
Qed.

Lemma percent_encode_all_app set a b :
  percent_encode_all set (a ++ b) = percent_encode_all set a ++ percent_encode_all set b.
Proof. unfold percent_encode_all. rewrite map_app, concat_app. reflexivity. Qed.

(** The URL of a target [/badRequest?…] whose query has no fragment. *)
Lemma parse_badRequest_query request b t :
  url request = js "/badRequest?" ++ t ->
  forallb query_unit t = true ->
  base_URL host_parser request = Some b ->
  exists u,
    parsedUrl host_parser request = Some u /\
    pathname u = js "/badRequest" /\
    query u = Some (percent_encode_all in_special_query_set t).
Proof.
  intros Hurl Ht Hb.
  assert (Hplain : forallb plain t = true).
  { apply forallb_forall. intros c Hc.
    apply (proj1 (forallb_forall _ _) Ht) in Hc.
    unfold query_unit in Hc. apply andb_true_iff in Hc as [Hc _]. exact Hc. }
  assert (Hsharp : forallb (fun c => negb (ch "#" =? c)) t = true).
  { apply forallb_forall. intros c Hc.
    apply (proj1 (forallb_forall _ _) Ht) in Hc.
    unfold query_unit in Hc. apply andb_true_iff in Hc as [_ Hc].
    rewrite N.eqb_sym. exact Hc. }
  unfold parsedUrl, URL_new. fold (base_URL host_parser request). rewrite Hb, Hurl.
  change (js "/badRequest?" ++ t) with (ch "/" :: js "badRequest?" ++ t).
  rewrite prepare_plain by reflexivity.
  rewrite prepare_rest_all
    by (rewrite forallb_app; apply andb_true_iff; split; [reflexivity|assumption]).
  apply base_URL_special in Hb as [Hs [l Hl]].
  unfold basic_URL_parser.
  change (split_scheme (ch "/" :: js "badRequest?" ++ t)) with (@None (list N * list N)).
  cbv iota. rewrite Hl. unfold relative. rewrite Hs.
  change (js "badRequest?" ++ t) with (ch "b" :: js "adRequest?" ++ t).
  change (is_separator true (ch "/")) with true.
  change (is_separator true (ch "b")) with false.
  change (ch "b" =? ch "/") with false. cbv iota. simpl andb. cbv iota.
  unfold with_path. rewrite Hs.
  change (path_state true false (ch "b" :: js "adRequest?" ++ t) [] [])
    with ([js "badRequest"], ch "?" :: t).
  unfold query_fragment. change (ch "?" =? ch "?") with true. cbv iota.
  rewrite (split_at_all (N.eqb (ch "#")) t Hsharp).
  eexists. split; [reflexivity|]. split; reflexivity.
Qed.

(** X7: a pair [valid=true] at the end of the query of a [/badRequest]
    target decides the answer, whatever the query holds before it: the
    status is 200. *)
Theorem later_valid_true_wins request q :
  url request = js "/badRequest?" ++ q ++ js "&valid=true" ->
  forallb query_unit q = true ->
  is_Some (base_URL host_parser request) ->
  serve host_parser request =
    (Normal tt, after (json_exchange BadRequest 200 valid_payload)).
Proof.
  intros Hurl Hq [b Hb].
  destruct (parse_badRequest_query request b (q ++ js "&valid=true") Hurl) as (u & Hu & Hp & Hquery);
    [rewrite forallb_app; apply andb_true_iff; split; [assumption|reflexivity]|assumption|].
  rewrite (serve_badRequest _ _ _ Hu Hp).
  rewrite bool_decide_eq_true_2; [reflexivity|].
  unfold searchParams. rewrite Hquery, percent_encode_all_app.
  change (percent_encode_all in_special_query_set (js "&valid=true"))
    with (ch "&" :: js "valid=true").
  rewrite urlencoded_parse_app.
  change (urlencoded_parse (js "valid=true")) with [(js "valid", js "true")].
  apply fromEntries_last, not_elem_of_nil.
Qed.

End MoreOfTheQuery.

Lemma later_valid_true_wins_witness :
  serve plain_host_parser (get "/badRequest?valid=false&x=%26&valid=true") =
    (Normal tt, after (json_exchange BadRequest 200 valid_payload)).
Proof.
  apply (later_valid_true_wins plain_host_parser _ (js "valid=false&x=%26"));
    [reflexivity|reflexivity|vm_compute; eexists; reflexivity].
Defined.

(** ** The serialised payload can be read back *)

Section ReadingJSON.

Lemma hex_digit_reads d :
  d < 16 -> is_hex (hex_digit d) = true /\ hex_value (hex_digit d) = d.
Proof.
  intros Hd.
  assert (H : d = 0 \/ d = 1 \/ d = 2 \/ d = 3 \/ d = 4 \/ d = 5 \/ d = 6 \/ d = 7 \/
              d = 8 \/ d = 9 \/ d = 10 \/ d = 11 \/ d = 12 \/ d = 13 \/ d = 14 \/ d = 15)
    by lia.
  repeat (destruct H as [-> | H]; [split; reflexivity|]). subst d. split; reflexivity.
Qed.

Lemma nibbles u :
  u < 65536 ->
  4096 * N.land (N.shiftr u 12) 0xF + 256 * N.land (N.shiftr u 8) 0xF
    + 16 * N.land (N.shiftr u 4) 0xF + N.land u 0xF = u.
Proof.
  intros Hu. change 0xF with (N.ones 4). rewrite !N.land_ones, !N.shiftr_div_pow2.
  change (2 ^ 4) with 16. change (2 ^ 8) with 256. change (2 ^ 12) with 4096.
  div_lia.
Qed.

Lemma read_plain c rest :
  (c =? 34) = false -> (c =? 92) = false -> (c <? 32) = false ->
  read_string (c :: rest) = prepend c (read_string rest).
Proof. intros H1 H2 H3. simpl. rewrite H1, H2, H3. reflexivity. Qed.

Lemma read_unicode_escape u rest :
  wf_unit u -> read_string (unicode_escape u ++ rest) = prepend u (read_string rest).
Proof.
  intros Hu. unfold unicode_escape.
  destruct (hex_digit_reads (N.land (N.shiftr u 12) 0xF) (land_15 _)) as [A1 B1].
  destruct (hex_digit_reads (N.land (N.shiftr u 8) 0xF) (land_15 _)) as [A2 B2].
  destruct (hex_digit_reads (N.land (N.shiftr u 4) 0xF) (land_15 _)) as [A3 B3].
  destruct (hex_digit_reads (N.land u 0xF) (land_15 _)) as [A4 B4].
  cbn [app read_string]. change (92 =? 34) with false. change (92 =? 92) with true.
  change (117 =? 117) with true. cbv iota.
  rewrite A1, A2, A3, A4, B1, B2, B3, B4. simpl andb. cbv iota.
  rewrite (nibbles u Hu). reflexivity.
Qed.

(** Reading the escape of one code unit gives the unit back. *)
Lemma read_quote_unit u rest :
  wf_unit u -> read_string (quote_unit u ++ rest) = prepend u (read_string rest).
Proof.
  intros Hu. unfold quote_unit.
  destruct (u =? 8) eqn:E1; [apply N.eqb_eq in E1; subst; reflexivity|].
  destruct (u =? 9) eqn:E2; [apply N.eqb_eq in E2; subst; reflexivity|].
  destruct (u =? 10) eqn:E3; [apply N.eqb_eq in E3; subst; reflexivity|].
  destruct (u =? 12) eqn:E4; [apply N.eqb_eq in E4; subst; reflexivity|].
  destruct (u =? 13) eqn:E5; [apply N.eqb_eq in E5; subst; reflexivity|].
  destruct (u =? 34) eqn:E6; [apply N.eqb_eq in E6; subst; reflexivity|].
  destruct (u =? 92) eqn:E7; [apply N.eqb_eq in E7; subst; reflexivity|].
  destruct ((u <? 32) || is_lead u || is_trail u) eqn:E8;
    [apply read_unicode_escape, Hu|].
  apply orb_false_iff in E8 as [E8 _]. apply orb_false_iff in E8 as [E8 _].
  apply read_plain; assumption.
Qed.

(** Reading the text of a quoted string gives the string back, with the
    text after the closing quote. *)
Lemma read_quote_body s rest :
  wf_string s -> read_string (quote_body s ++ 34 :: rest) = Some (s, rest).
Proof.
  remember (length s) as n eqn:Hn. revert s Hn.
  induction (lt_wf n) as [n _ IH]. intros s Hn Hwf.
  destruct s as [|u s']; [reflexivity|].
  apply Forall_cons in Hwf as [Hu Hs'].
  assert (Hrec : read_string (quote_body s' ++ 34 :: rest) = Some (s', rest)).
  { apply (IH (length s')); [simpl in Hn; lia|reflexivity|assumption]. }
  assert (Hone : read_string ((quote_unit u ++ quote_body s') ++ 34 :: rest)
                 = Some (u :: s', rest)).
  { rewrite <- app_assoc, read_quote_unit by assumption. rewrite Hrec. reflexivity. }
  simpl quote_body. destruct (is_lead u) eqn:Hl; [|exact Hone].
  destruct s' as [|v s'']; [|destruct (is_trail v) eqn:Ht; [|exact Hone]].
  - rewrite read_quote_unit by assumption. reflexivity.
  - apply Forall_cons in Hs' as [Hv Hs''].
    cbn [app]. unfold is_lead, is_trail in Hl, Ht.
    rewrite !read_plain by (unbool; lia).
    rewrite (IH (length s'')) with (s := s''); [reflexivity|simpl in Hn; lia|reflexivity|assumption].
Qed.

(** X8: the string token that [JSON.stringify] writes for a string is read
    back as that string, whatever text follows it: escapes, surrogate pairs
    and lone surrogates included. *)
Theorem quoted_string_reads_back s rest :
  wf_string s -> JSON_read_string (QuoteJSONString s ++ rest) = Some (s, rest).
Proof.
  intros Hs. unfold QuoteJSONString, JSON_read_string. cbn [app].
  change (34 =? 34) with true. cbv iota.
  rewrite <- app_assoc. apply read_quote_body, Hs.
Qed.

Lemma quoted_string_reads_back_witness :
  JSON_read_string (QuoteJSONString [9; 34; 92; 0xD800; 233; 0xD83D; 0xDE00] ++ js ":1") =
    Some ([9; 34; 92; 0xD800; 233; 0xD83D; 0xDE00], js ":1").
Proof. apply quoted_string_reads_back. repeat constructor. Defined.

(** Two quoted strings with texts after them that are equal as a whole are
    equal part by part. *)
Lemma quoted_prefix s1 s2 r1 r2 :
  wf_string s1 -> wf_string s2 ->
  QuoteJSONString s1 ++ r1 = QuoteJSONString s2 ++ r2 -> s1 = s2 /\ r1 = r2.
Proof.
  intros H1 H2 Heq. unfold QuoteJSONString in Heq. cbn [app] in Heq.
  rewrite <- !app_assoc in Heq.
  assert (Heq' : quote_body s1 ++ 34 :: r1 = quote_body s2 ++ 34 :: r2)
    by (injection Heq; trivial).
  pose proof (read_quote_body s1 r1 H1) as R1.
  pose proof (read_quote_body s2 r2 H2) as R2.
  rewrite Heq' in R1. rewrite R1 in R2. injection R2 as -> ->. split; reflexivity.
Qed.

Lemma join_members_tail ms :
  join_members ms ++ [125] =
    match ms with
    | [] => [125]
    | m :: rest => m ++ members_tail rest
    end.
Proof.
  induction ms as [|m ms IH]; [reflexivity|].
  destruct ms as [|m' ms']; [reflexivity|].
  change (join_members (m :: m' :: ms')) with (m ++ 44 :: join_members (m' :: ms')).
  rewrite <- app_assoc. f_equal.
  change ((44 :: join_members (m' :: ms')) ++ [125])
    with (44 :: (join_members (m' :: ms') ++ [125])).
  rewrite IH. reflexivity.
Qed.

Lemma stringify_members o :
  JSON_stringify o =
    123 :: match map member_text o with
           | [] => [125]
           | m :: rest => m ++ members_tail rest
           end.
Proof.
  unfold JSON_stringify.
  change (fun kv : jsstring * jsstring => QuoteJSONString kv.1 ++ [58] ++ QuoteJSONString kv.2)
    with member_text.
  change ([123] ++ join_members (map member_text o) ++ [125])
    with (123 :: (join_members (map member_text o) ++ [125])).
  rewrite join_members_tail. reflexivity.
Qed.

Lemma member_text_app k v r :
  member_text (k, v) ++ r = QuoteJSONString k ++ 58 :: (QuoteJSONString v ++ r).
Proof. unfold member_text. cbn [fst snd]. rewrite <- !app_assoc. reflexivity. Qed.

Lemma member_text_prefix kv1 kv2 r1 r2 :
  (wf_string kv1.1 /\ wf_string kv1.2) -> (wf_string kv2.1 /\ wf_string kv2.2) ->
  member_text kv1 ++ r1 = member_text kv2 ++ r2 -> kv1 = kv2 /\ r1 = r2.
Proof.
  destruct kv1 as [k1 v1], kv2 as [k2 v2]. cbn [fst snd]. intros [Hk1 Hv1] [Hk2 Hv2] Heq.
  rewrite !member_text_app in Heq.
  apply quoted_prefix in Heq as [-> Heq]; [|assumption..].
  assert (Heq' : QuoteJSONString v1 ++ r1 = QuoteJSONString v2 ++ r2) by congruence.
  apply quoted_prefix in Heq' as [-> ->]; [|assumption..].
  split; reflexivity.
Qed.

Lemma members_tail_injective o1 o2 :
  wf_object o1 -> wf_object o2 ->
  members_tail (map member_text o1) = members_tail (map member_text o2) -> o1 = o2.
Proof.
  revert o2. induction o1 as [|kv1 o1 IH]; intros [|kv2 o2] H1 H2 Heq;
    try reflexivity; try discriminate.
  apply Forall_cons in H1 as [Hkv1 H1], H2 as [Hkv2 H2].
  cbn [map members_tail] in Heq.
  assert (Heq' : member_text kv1 ++ members_tail (map member_text o1)
                 = member_text kv2 ++ members_tail (map member_text o2)) by congruence.
  apply member_text_prefix in Heq' as [-> Heq']; [|assumption..].
  f_equal. apply IH; assumption.
Qed.

(** The text between the braces, with the closing brace, tells the members. *)
Lemma members_injective o1 o2 :
  wf_object o1 -> wf_object o2 ->
  match map member_text o1 with
  | [] => [125]
  | m :: rest => m ++ members_tail rest
  end =
  match map member_text o2 with
  | [] => [125]
  | m :: rest => m ++ members_tail rest
  end ->
  o1 = o2.
Proof.
  intros H1 H2 Heq.
  destruct o1 as [|kv1 o1], o2 as [|kv2 o2]; try reflexivity.
  - cbn [map] in Heq. unfold member_text, QuoteJSONString in Heq. discriminate Heq.
  - cbn [map] in Heq. unfold member_text, QuoteJSONString in Heq. discriminate Heq.
  - apply Forall_cons in H1 as [Hkv1 H1], H2 as [Hkv2 H2]. cbn [map] in Heq.
    apply member_text_prefix in Heq as [-> Heq]; [|assumption..].
    f_equal. apply members_tail_injective; assumption.
Qed.

(** X9: [JSON.stringify] loses nothing of a payload: two payloads with the
    same text have the same properties with the same values in the same
    order. *)
Theorem JSON_stringify_injective o1 o2 :
  wf_object o1 -> wf_object o2 -> JSON_stringify o1 = JSON_stringify o2 -> o1 = o2.
Proof.
  intros H1 H2. rewrite !stringify_members. intros Heq.
  apply members_injective; [assumption..|congruence].
Qed.

Lemma JSON_stringify_injective_witness :
  invalid_payload =
    [(js "message", js "Missing valid query parameter set to true");
     (js "id", js "badRequest")].
Proof.
  apply JSON_stringify_injective; [repeat constructor..|reflexivity].
Defined.

End ReadingJSON.

(** ** The body can be decoded *)

Section DecodingUTF8.

Lemma lor_high_low a b n : b < 2 ^ n -> N.lor (a * 2 ^ n) b = a * 2 ^ n + b.
Proof.
  intros Hb.
  assert (H : N.land (a * 2 ^ n) b = 0).
  { apply N.bits_inj. intros i. rewrite N.land_spec, N.bits_0.
    destruct (N.lt_ge_cases i n) as [Hi|Hi].
    - rewrite N.mul_pow2_bits_low by assumption. reflexivity.
    - assert (Hbi : N.testbit b i = false).
      { destruct (N.eq_dec b 0) as [->|Hne]; [apply N.bits_0|].
        apply N.bits_above_log2. apply N.log2_lt_pow2; [lia|].
        eapply N.lt_le_trans; [exact Hb|]. apply N.pow_le_mono_r; lia. }
      rewrite Hbi. apply andb_false_r. }
  rewrite <- N.lxor_lor by assumption. symmetry. apply N.add_nocarry_lxor, H.
Qed.

(** The bit operations of the encoder and the decoder as arithmetic. *)
Lemma low6 x : N.land x 0x3F = x mod 64.
Proof. change 0x3F with (N.ones 6). apply N.land_ones. Qed.
Lemma low5 x : N.land x 0x1F = x mod 32.
Proof. change 0x1F with (N.ones 5). apply N.land_ones. Qed.
Lemma low4 x : N.land x 0xF = x mod 16.
Proof. change 0xF with (N.ones 4). apply N.land_ones. Qed.
Lemma low3 x : N.land x 0x7 = x mod 8.
Proof. change 0x7 with (N.ones 3). apply N.land_ones. Qed.
Lemma low10 x : N.land x 0x3FF = x mod 1024.
Proof. change 0x3FF with (N.ones 10). apply N.land_ones. Qed.

Lemma continuation x : N.lor 0x80 (x mod 64) = 128 + x mod 64.
Proof.
  change 0x80 with (2 * 2 ^ 6). rewrite lor_high_low; [reflexivity|].
  apply N.mod_lt. discriminate.
Qed.

Lemma shift_in cp b : N.lor (N.shiftl cp 6) (b mod 64) = cp * 64 + b mod 64.
Proof.
  rewrite N.shiftl_mul_pow2. rewrite lor_high_low; [reflexivity|].
  apply N.mod_lt. discriminate.
Qed.

Lemma lead2 x : x < 32 -> N.lor 0xC0 x = 192 + x.
Proof. intros H. change 0xC0 with (3 * 2 ^ 6). rewrite lor_high_low; [reflexivity|simpl; lia]. Qed.
Lemma lead3 x : x < 16 -> N.lor 0xE0 x = 224 + x.
Proof. intros H. change 0xE0 with (7 * 2 ^ 5). rewrite lor_high_low; [reflexivity|simpl; lia]. Qed.
Lemma lead4 x : x < 8 -> N.lor 0xF0 x = 240 + x.
Proof. intros H. change 0xF0 with (15 * 2 ^ 4). rewrite lor_high_low; [reflexivity|simpl; lia]. Qed.

(** The steps of the decoder. *)
Lemma decode_ascii b bs :
  b < 128 ->
  utf8_decode_from (b :: bs) 0 0 0x80 0xBF = b :: utf8_decode_from bs 0 0 0x80 0xBF.
Proof.
  intros H. cbn [utf8_decode_from]. change (0 =? 0) with true. cbv iota.
  replace (b <=? 127) with true by (symmetry; apply N.leb_le; lia). reflexivity.
Qed.

Lemma decode_lead2 b bs :
  194 <= b <= 223 ->
  utf8_decode_from (b :: bs) 0 0 0x80 0xBF = utf8_decode_from bs (b mod 32) 1 0x80 0xBF.
Proof.
  intros H. cbn [utf8_decode_from]. change (0 =? 0) with true. cbv iota.
  replace (b <=? 127) with false by (symmetry; apply N.leb_gt; lia).
  replace ((194 <=? b) && (b <=? 223)) with true by (symmetry; unbool; lia).
  rewrite low5. reflexivity.
Qed.

Lemma decode_lead3 b bs :
  224 <= b <= 239 ->
  utf8_decode_from (b :: bs) 0 0 0x80 0xBF =
    utf8_decode_from bs (b mod 16) 2
      (if b =? 224 then 160 else 128) (if b =? 237 then 159 else 191).
Proof.
  intros H. cbn [utf8_decode_from]. change (0 =? 0) with true. cbv iota.
  replace (b <=? 127) with false by (symmetry; apply N.leb_gt; lia).
  replace ((194 <=? b) && (b <=? 223)) with false by (symmetry; unbool; lia).
  replace ((224 <=? b) && (b <=? 239)) with true by (symmetry; unbool; lia).
  rewrite low4. reflexivity.
Qed.

Lemma decode_lead4 b bs :
  240 <= b <= 244 ->
  utf8_decode_from (b :: bs) 0 0 0x80 0xBF =
    utf8_decode_from bs (b mod 8) 3
      (if b =? 240 then 144 else 128) (if b =? 244 then 143 else 191).
Proof.
  intros H. cbn [utf8_decode_from]. change (0 =? 0) with true. cbv iota.
  replace (b <=? 127) with false by (symmetry; apply N.leb_gt; lia).
  replace ((194 <=? b) && (b <=? 223)) with false by (symmetry; unbool; lia).
  replace ((224 <=? b) && (b <=? 239)) with false by (symmetry; unbool; lia).
  replace ((240 <=? b) && (b <=? 244)) with true by (symmetry; unbool; lia).
  rewrite low3. reflexivity.
Qed.

Lemma decode_last b bs cp lo hi :
  lo <= b <= hi ->
  utf8_decode_from (b :: bs) cp 1 lo hi =
    (cp * 64 + b mod 64) :: utf8_decode_from bs 0 0 0x80 0xBF.
Proof.
  intros H. cbn [utf8_decode_from]. change (1 =? 0) with false. cbv iota.
  replace ((b <? lo) || (hi <? b)) with false by (symmetry; unbool; lia).
  change (1 =? 1) with true. cbv iota. rewrite low6, shift_in. reflexivity.
Qed.

Lemma decode_more b bs cp needed lo hi :
  lo <= b <= hi -> 2 <= needed ->
  utf8_decode_from (b :: bs) cp needed lo hi =
    utf8_decode_from bs (cp * 64 + b mod 64) (needed - 1) 0x80 0xBF.
Proof.
  intros H Hn. cbn [utf8_decode_from].
  replace (needed =? 0) with false by (symmetry; apply N.eqb_neq; lia).
  replace ((b <? lo) || (hi <? b)) with false by (symmetry; unbool; lia).
  replace (needed =? 1) with false by (symmetry; apply N.eqb_neq; lia).
  rewrite low6, shift_in. reflexivity.
Qed.

(** Decoding the bytes of a scalar value gives the value. *)
Lemma decode_encode_cp c bs :
  scalar c = true ->
  utf8_decode_from (utf8_encode_cp c ++ bs) 0 0 0x80 0xBF =
    c :: utf8_decode_from bs 0 0 0x80 0xBF.
Proof.
  unfold scalar. intros Hc. unbool. unfold utf8_encode_cp.
  rewrite !low6, !continuation, !N.shiftr_div_pow2.
  change (2 ^ 6) with 64. change (2 ^ 12) with 4096. change (2 ^ 18) with 262144.
  destruct (c <? 128) eqn:H1; [|destruct (c <? 2048) eqn:H2; [|destruct (c <? 65536) eqn:H3]];
    unbool; cbn [app].
  - apply decode_ascii. lia.
  - rewrite lead2 by div_lia.
    rewrite decode_lead2 by div_lia. rewrite decode_last by div_lia.
    f_equal. div_lia.
  - rewrite lead3 by div_lia.
    rewrite decode_lead3 by div_lia.
    rewrite decode_more by (repeat case_match; unbool; div_lia).
    rewrite decode_last by div_lia. f_equal. div_lia.
  - rewrite lead4 by div_lia.
    rewrite decode_lead4 by div_lia.
    rewrite decode_more by (repeat case_match; unbool; div_lia).
    rewrite decode_more by div_lia.
    rewrite decode_last by div_lia. f_equal. div_lia.
Qed.

Lemma utf16_encode_cons c cs : utf16_encode (c :: cs) = utf16_encode_cp c ++ utf16_encode cs.
Proof. reflexivity. Qed.

(** The scalar values of a string without lone surrogates are scalar values
    indeed, and their UTF-16 encoding is the string. *)
Lemma scalar_values_paired s :
  wf_string s -> well_paired s = true ->
  Forall (fun c => scalar c = true) (scalar_values s) /\
  utf16_encode (scalar_values s) = s.
Proof.
  remember (length s) as n eqn:Hn. revert s Hn.
  induction (lt_wf n) as [n _ IH]. intros s Hn Hwf Hp.
  destruct s as [|u rest]; [split; [constructor|reflexivity]|].
  apply Forall_cons in Hwf as [Hu Hrest]. unfold wf_unit in Hu.
  simpl in Hp. simpl scalar_values. destruct (is_lead u) eqn:Hl.
  - destruct rest as [|v rest']; [discriminate|].
    apply andb_true_iff in Hp as [Ht Hp]. rewrite Ht.
    apply Forall_cons in Hrest as [Hv Hrest']. unfold wf_unit in Hv.
    destruct (IH (length rest') ltac:(simpl in Hn; lia) rest' eq_refl Hrest' Hp) as [IH1 IH2].
    unfold is_lead in Hl. unfold is_trail in Ht. unbool.
    split.
    + apply Forall_cons. split; [|assumption].
      unfold scalar. rewrite N.shiftl_mul_pow2. change (2 ^ 10) with 1024. unbool.
      split; [lia|right; lia].
    + rewrite utf16_encode_cons, IH2. unfold utf16_encode_cp.
      rewrite N.shiftl_mul_pow2, low10, N.shiftr_div_pow2. change (2 ^ 10) with 1024.
      replace (65536 + (u - 55296) * 1024 + (v - 56320) <? 65536) with false
        by (symmetry; apply N.ltb_ge; lia).
      cbn [app]. f_equal; [div_lia|f_equal; div_lia].
  - apply andb_true_iff in Hp as [Ht Hp]. apply negb_true_iff in Ht. rewrite Ht.
    destruct (IH (length rest) ltac:(simpl in Hn; lia) rest eq_refl Hrest Hp) as [IH1 IH2].
    unfold is_lead in Hl. unfold is_trail in Ht.
    split.
    + apply Forall_cons. split; [|assumption]. unfold scalar. unbool.
      split; [lia|]. lia.
    + rewrite utf16_encode_cons, IH2. unfold utf16_encode_cp.
      replace (u <? 65536) with true by (symmetry; apply N.ltb_lt; lia). reflexivity.
Qed.

Lemma decode_encode_scalars cs :
  Forall (fun c => scalar c = true) cs ->
  utf8_decode_from (concat (map utf8_encode_cp cs)) 0 0 0x80 0xBF = cs.
Proof.
  induction 1 as [|c cs Hc Hcs IH]; [reflexivity|].
  cbn [map concat]. rewrite decode_encode_cp by assumption. rewrite IH. reflexivity.
Qed.

(** A string without lone surrogates is what a decoder makes of its bytes. *)

(** Pairing goes through concatenation. *)
Lemma well_paired_app a b :
  well_paired a = true -> well_paired (a ++ b) = well_paired b.
Proof.
  remember (length a) as n eqn:Hn. revert a Hn.
  induction (lt_wf n) as [n _ IH]. intros a Hn Ha.
  destruct a as [|u a']; [reflexivity|].
  simpl in Ha. cbn [app well_paired]. destruct (is_lead u).
  - destruct a' as [|v a'']; [discriminate|].
    apply andb_true_iff in Ha as [Hv Ha]. cbn [app]. rewrite Hv. cbn [andb].
    apply (IH (length a'')); [simpl in Hn; lia|reflexivity|assumption].
  - apply andb_true_iff in Ha as [Hu Ha]. rewrite Hu. cbn [andb].
    apply (IH (length a')); [simpl in Hn; lia|reflexivity|assumption].
Qed.

Lemma hex_digit_ascii d : d < 16 -> hex_digit d < 128.
Proof. intros H. unfold hex_digit. case_match; lia. Qed.

Lemma ascii_paired u rest :
  u < 128 -> well_paired (u :: rest) = well_paired rest.
Proof.
  intros H. cbn [well_paired]. unfold is_lead, is_trail.
  replace (55296 <=? u) with false by (symmetry; apply N.leb_gt; lia).
  replace (56320 <=? u) with false by (symmetry; apply N.leb_gt; lia).
  reflexivity.
Qed.

(** The escape of a code unit holds no lone surrogate. *)
Lemma quote_unit_paired u :
  is_lead u = false -> well_paired (quote_unit u) = true.
Proof.
  intros Hl. unfold quote_unit, unicode_escape.
  repeat case_match; try reflexivity.
  - rewrite !ascii_paired; try reflexivity; try lia; apply hex_digit_ascii, land_15.
  - cbn [well_paired]. rewrite Hl.
    match goal with H : _ || _ || _ = false |- _ =>
      apply orb_false_iff in H as [_ H]; rewrite H end.
    reflexivity.
Qed.

Lemma unicode_escape_paired u : well_paired (unicode_escape u) = true.
Proof.
  unfold unicode_escape.
  rewrite !ascii_paired; try reflexivity; try lia; apply hex_digit_ascii, land_15.
Qed.

Lemma quote_lead u : is_lead u = true -> quote_unit u = unicode_escape u.
Proof.
  intros Hl. unfold quote_unit. rewrite Hl, orb_true_r. cbn [orb].
  unfold is_lead in Hl. unbool.
  repeat match goal with
  | |- context [?a =? ?b] =>
    replace (a =? b) with false by (symmetry; apply N.eqb_neq; lia)
  end.
  reflexivity.
Qed.

Lemma quote_body_paired s : well_paired (quote_body s) = true.
Proof.
  remember (length s) as n eqn:Hn. revert s Hn.
  induction (lt_wf n) as [n _ IH]. intros s Hn.
  destruct s as [|u rest]; [reflexivity|].
  assert (Hrest : well_paired (quote_body rest) = true).
  { apply (IH (length rest)); [simpl in Hn; lia|reflexivity]. }
  simpl quote_body. destruct (is_lead u) eqn:Hl.
  - destruct rest as [|v rest'].
    + rewrite quote_lead by assumption. apply unicode_escape_paired.
    + destruct (is_trail v) eqn:Ht.
      * cbn [well_paired]. rewrite Hl, Ht. cbn [andb].
        apply (IH (length rest')); [simpl in Hn; lia|reflexivity].
      * rewrite quote_lead by assumption.
        rewrite well_paired_app by apply unicode_escape_paired. exact Hrest.
  - rewrite well_paired_app by (apply quote_unit_paired, Hl). exact Hrest.
Qed.

Lemma QuoteJSONString_paired s rest :
  well_paired (QuoteJSONString s ++ rest) = well_paired rest.
Proof.
  unfold QuoteJSONString. cbn [app]. rewrite ascii_paired by lia.
  rewrite <- app_assoc, well_paired_app by apply quote_body_paired.
  cbn [app]. apply ascii_paired. lia.
Qed.

Lemma members_tail_paired o : well_paired (members_tail (map member_text o)) = true.
Proof.
  induction o as [|[k v] o IH]; [reflexivity|].
  cbn [map members_tail]. rewrite ascii_paired by lia.
  rewrite member_text_app, QuoteJSONString_paired, ascii_paired by lia.
  rewrite QuoteJSONString_paired. exact IH.
Qed.

(** The text of a payload holds no lone surrogate, whatever its strings. *)
Lemma JSON_stringify_paired o : well_paired (JSON_stringify o) = true.
Proof.
  rewrite stringify_members, ascii_paired by lia.
  destruct o as [|[k v] o]; [reflexivity|].
  cbn [map]. rewrite member_text_app, QuoteJSONString_paired, ascii_paired by lia.
  rewrite QuoteJSONString_paired. apply members_tail_paired.
Qed.

(** X10: the bytes [respondJSON] writes are read back by a UTF-8 decoder as
    the text of the payload, code unit by code unit, also for a payload
    whose strings hold lone surrogates. *)
Theorem body_decodes obj :
  wf_object obj ->
  utf8_decode (utf8_encode (JSON_stringify obj)) = JSON_stringify obj.
Proof.
  intros Hobj.
  destruct (scalar_values_paired (JSON_stringify obj)
              (JSON_stringify_wf obj Hobj) (JSON_stringify_paired obj)) as [Hs Hu].
  unfold utf8_decode, utf8_encode. rewrite decode_encode_scalars by assumption. exact Hu.
Qed.

Lemma body_decodes_witness :
  utf8_decode (utf8_encode (JSON_stringify [(js "message", [233; 0xD800; 0xD83D; 0xDE00])])) =
    JSON_stringify [(js "message", [233; 0xD800; 0xD83D; 0xDE00])].
Proof. apply body_decodes. repeat constructor. Defined.

(** X11: a string without lone surrogates is read back from its UTF-8
    bytes as it was: the decoder of the search parameters undoes the
    encoder of [write] and [Buffer.byteLength]. *)
Theorem utf8_round_trip s :
  wf_string s -> well_paired s = true -> utf8_decode (utf8_encode s) = s.
Proof.
  intros Hwf Hp. destruct (scalar_values_paired s Hwf Hp) as [Hs Hu].
  unfold utf8_decode, utf8_encode. rewrite decode_encode_scalars by assumption. exact Hu.
Qed.

Lemma utf8_round_trip_witness :
  utf8_decode (utf8_encode [233; 8364; 0xD83D; 0xDE00]) = [233; 8364; 0xD83D; 0xDE00].
Proof. apply utf8_round_trip; [repeat constructor|reflexivity]. Defined.

End DecodingUTF8.

(** ** The page and the server together *)

Section PageAndServer.

Variable host_parser : list N -> bool -> option (list N).





End PageAndServer.

